(** * Citation-analysis models: the organization hierarchy, the relationship
      graphs and the per-year citation series

    A shallow embedding of [src/__init__.py].  The module declares nine
    tables through Flask-SQLAlchemy and a handful of methods that walk the
    organization forest.  Tables are lists of rows in storage order, nullable
    columns are [option]s, relationships are queries over the tables, and
    the recursive methods are fuel-indexed functions whose result is either
    [Done v] or [OutOfFuel] (the recursion went deeper than the fuel). *)

From Stdlib Require Import ZArith Lia.
From stdpp Require Import base option list sorting strings.

Set Warnings "-clear-no-such-hyp".

Local Open Scope Z_scope.
Local Open Scope string_scope.
Local Open Scope list_scope.

(** ** Results of recursive methods *)

Inductive run (A : Type) : Type :=
| Done (a : A)
| OutOfFuel.
Arguments Done {A} a.
Arguments OutOfFuel {A}.

#[global] Instance run_ret : MRet run := @Done.
#[global] Instance run_bind : MBind run := λ A B f m,
  match m with
  | Done a => f a
  | OutOfFuel => OutOfFuel
  end.
#[global] Instance run_fmap : FMap run := λ A B f m,
  match m with
  | Done a => Done (f a)
  | OutOfFuel => OutOfFuel
  end.

(** A Python [for x in xs:] loop whose body updates local state [s] and may
    call a recursive method. *)
Fixpoint for_each {A S : Type} (xs : list A) (s : S) (body : S → A → run S)
  : run S :=
  match xs with
  | [] => Done s
  | x :: xs' => s' ← body s x; for_each xs' s' body
  end.

(** ** Python values returned by the string-rendering methods *)

Inductive pyval : Type :=
| PyNone
| PyStr (s : string).

Definition is_str (v : pyval) : bool :=
  match v with
  | PyStr _ => true
  | PyNone => false
  end.

(** [sep.join(parts)] on a list of [str]. *)
Definition str_join (sep : string) (parts : list string) : string :=
  String.concat sep parts.

(** ** Rows of the tables

    One module per [__tablename__]; a field per [db.Column], [option] where
    the column accepts NULL.  Integers are [Z], [db.DateTime] is a timestamp
    in [Z], [db.Numeric(precision=10, scale=2)] is the value scaled by 100. *)

Module organization.
Record row : Type := Row {
  id : Z;
  name : string;
  parent_id : option Z;
  scholar_org_id : option string;
  location : option string;
  website_url : option string;
  children_source_url : option string
}.
End organization.

Module author.
Record row : Type := Row {
  id : Z;
  name : string;
  title : option string;
  organization_id : option Z;
  auto_org_assignment : option bool;
  author_org_google_id : option string;
  year_of_phd : option Z;
  tenured : option bool;
  scholar_id : option string;
  website_url : option string;
  email_domain : option string;
  total_citations : option Z;
  h_index : option Z;
  i10_index : option Z;
  retrieved_at : option Z
}.
End author.

Module coauthor.
Record row : Type := Row {
  author_id : option Z;
  coauthor_id : option Z
}.
End coauthor.

Module author_publication.
Record row : Type := Row {
  author_id : option Z;
  publication_id : option Z
}.
End author_publication.

Module author_citations_per_year.
Record row : Type := Row {
  author_id : Z;
  year : Z;
  citations : Z
}.
End author_citations_per_year.

Module publication.
Record row : Type := Row {
  id : Z;
  type : option string;
  title : option string;
  authors : option string;
  scholar_id : option string;
  year_of_publication : option Z;
  total_citations : option Z;
  retrieved_at : option Z;
  venue : option string;
  volume : option Z;
  issue : option Z;
  publisher : option string;
  pages : option string
}.
End publication.

Module publication_citations_per_year.
Record row : Type := Row {
  publication_id : Z;
  year : Z;
  citations : Z
}.
End publication_citations_per_year.

Module benchmark.
Record row : Type := Row {
  id : Z;
  name : string;
  query : string;
  description : option string
}.
End benchmark.

Module suggestions.
Record row : Type := Row {
  id : Z;
  author_id : option Z;
  benchmark_id : option Z;
  scholar_website : option string;
  rationale : option string;
  created : option Z
}.
End suggestions.

(** The stored state: one list of rows per table, in storage order. *)
Record Db : Type := MkDb {
  organization_rows : list organization.row;
  author_rows : list author.row;
  coauthor_rows : list coauthor.row;
  author_publication_rows : list author_publication.row;
  author_citations_per_year_rows : list author_citations_per_year.row;
  publication_rows : list publication.row;
  publication_citations_per_year_rows :
    list publication_citations_per_year.row;
  benchmark_rows : list benchmark.row;
  suggestions_rows : list suggestions.row
}.

(** ** Declarations

    What [db.Column(...)] and [db.relationship(...)] record, with the
    keyword arguments the source passes. *)

Module types.
Inductive column_type : Type :=
| Integer
| String (length : nat)
| Text
| Boolean
| Numeric (precision scale : nat)
| DateTime.
End types.

Record Column : Type := MkColumn {
  column_name : string;
  column_type : types.column_type;
  foreign_key : option string;
  primary_key : bool;
  nullable_arg : option bool;
  unique : bool;
  autoincrement : bool
}.

(** A column accepts NULL as [nullable=] says; when the keyword is absent
    it does unless it is part of the primary key. *)
Definition nullable (c : Column) : bool :=
  match nullable_arg c with
  | Some b => b
  | None => negb (primary_key c)
  end.

(** A one-to-many relationship to rows of type [R]; [cascade] is the
    comma-separated option list, [order_by] the column the collection is
    ordered by when one is named. *)
Record relationship (R : Type) : Type := MkRelationship {
  argument : string;
  cascade : list string;
  order_by : option (R → Z)
}.
Arguments MkRelationship {R} _ _ _.
Arguments argument {R} _.
Arguments cascade {R} _.
Arguments order_by {R} _.

(** ["all"] stands for every cascade but [delete-orphan], [delete]
    included. *)
Definition cascade_delete {R : Type} (rel : relationship R) : bool :=
  bool_decide ("all" ∈ cascade rel ∨ "delete" ∈ cascade rel).

(** [r1] comes no later than [r2] under [ORDER BY key] ascending. *)
Definition key_le {R : Type} (key : R → Z) : relation R :=
  λ r1 r2, (key r1 ≤ key r2)%Z.

#[global] Instance key_le_dec {R : Type} (key : R → Z) (r1 r2 : R) :
  Decision (key_le key r1 r2).
Proof. unfold key_le. apply _. Defined.

(** Reading a collection: the matching rows, [ORDER BY] the declared column
    ascending if one is declared, in storage order otherwise. *)
Definition load_collection {R : Type} (rel : relationship R)
    (matching : list R) : list R :=
  match order_by rel with
  | Some key => merge_sort (key_le key) matching
  | None => matching
  end.

(** [Query.get(pk)]: the row with that primary key, if any. *)
Definition get_organization (db : Db) (pk : Z) : option organization.row :=
  head (filter (λ o, organization.id o = pk) (organization_rows db)).

(** ** class Organization *)

Module Organization.

(** The dictionaries built by [descendant_tree], keys ['id'], ['name'],
    ['children'] and ['number_of_authors']. *)
#[warnings="-register-all"]
Inductive tree_node : Type :=
| TreeNode (id : Z) (name : string) (children : list tree_node)
           (number_of_authors : nat).

Section methods.
Variable db : Db.

(** [parent = db.relation('Organization', remote_side=[id],
    backref="children")]: many-to-one through [parent_id]. *)
Definition parent (self : organization.row) : option organization.row :=
  pid ← organization.parent_id self; get_organization db pid.

(** The backref: the rows whose [parent_id] is this organization's id. *)
Definition children (self : organization.row) : list organization.row :=
  filter (λ c, organization.parent_id c = Some (organization.id self))
         (organization_rows db).

(** The backref of [Author.organization]. *)
Definition authors (self : organization.row) : list author.row :=
  filter (λ a, author.organization_id a = Some (organization.id self))
         (author_rows db).

Definition children_ids (self : organization.row) : list Z :=
  organization.id <$> children self.

Fixpoint ancestors (fuel : nat) (self : organization.row)
  : run (list organization.row) :=
  match fuel with
  | O => OutOfFuel
  | S fuel' =>
    match parent self with
    | None => Done []
    | Some p =>
      let l := [p] in
      rest ← ancestors fuel' p;
      Done (l ++ rest)
    end
  end.

Definition ancestor_ids (fuel : nat) (self : organization.row)
  : run (list Z) :=
  l ← ancestors fuel self;
  Done (organization.id <$> (l : list organization.row)).

Definition ancestor_tree (fuel : nat) (self : organization.row)
  : run pyval :=
  ancestors_ ← ancestors fuel self;
  match ancestors_ with
  | [] => Done PyNone
  | _ => Done (PyStr (str_join " :: "
                        (organization.name <$> reverse ancestors_)))
  end.

Fixpoint descendants (fuel : nat) (self : organization.row)
  : run (list organization.row) :=
  match fuel with
  | O => OutOfFuel
  | S fuel' =>
    match children self with
    | [] => Done []
    | _ =>
      for_each (children self) []
        (λ l c, ds ← descendants fuel' c; Done ((l ++ [c]) ++ ds))
    end
  end.

Definition descendant_ids (fuel : nat) (self : organization.row)
  : run (list Z) :=
  l ← descendants fuel self;
  Done (organization.id <$> (l : list organization.row)).

Definition number_of_authors (self : organization.row) : nat :=
  length (authors self).

Fixpoint descendant_tree (fuel : nat) (self : organization.row)
  : run (list tree_node) :=
  match fuel with
  | O => OutOfFuel
  | S fuel' =>
    for_each (children self) []
      (λ descendants_ c,
         sub ← descendant_tree fuel' c;
         Done (descendants_ ++
               [TreeNode (organization.id c) (organization.name c) sub
                         (number_of_authors c)]))
  end.
End methods.
End Organization.

(** ** class Author *)

Module Author.
Section methods.
Variable db : Db.

(** [organization = db.relation('Organization',
    foreign_keys=[organization_id], backref="authors")]. *)
Definition organization (self : author.row) : option organization.row :=
  oid ← author.organization_id self; get_organization db oid.

Definition organization_tree (fuel : nat) (self : author.row) : run pyval :=
  match organization self with
  | None => Done (PyStr "")
  | Some org =>
    let organizations := [org] in
    rest ← Organization.ancestors db fuel org;
    let organizations := organizations ++ rest in
    Done (PyStr (str_join " :: "
                   (organization.name <$> reverse organizations)))
  end.

Definition organization_ids (fuel : nat) (self : author.row)
  : run (list Z) :=
  match organization self with
  | None => Done []
  | Some org =>
    let organizations := [org] in
    rest ← Organization.ancestors db fuel org;
    let organizations := organizations ++ rest in
    Done (organization.id <$> reverse organizations)
  end.

(** [coauthors = db.relationship("Author", secondary=coauthors,
    primaryjoin=id == coauthors.c.author_id,
    secondaryjoin=id == coauthors.c.coauthor_id)]: the edges whose
    [author_id] is this author, joined to the authors named by their
    [coauthor_id]. *)
Definition coauthors (self : author.row) : list author.row :=
  e ← filter (λ e, coauthor.author_id e = Some (author.id self))
             (coauthor_rows db);
  filter (λ y, coauthor.coauthor_id e = Some (author.id y)) (author_rows db).

(** [publications = db.relationship("Publication",
    secondary=author_publications, backref="authors")]. *)
Definition publications (self : author.row) : list publication.row :=
  e ← filter (λ e, author_publication.author_id e = Some (author.id self))
             (author_publication_rows db);
  filter (λ p, author_publication.publication_id e = Some (publication.id p))
         (publication_rows db).

(** [citations_per_year = db.relationship("AuthorCitationsPerYear",
    cascade="all, delete-orphan", order_by="AuthorCitationsPerYear.year")]. *)
Definition citations_per_year_relationship
  : relationship author_citations_per_year.row :=
  MkRelationship "AuthorCitationsPerYear" ["all"; "delete-orphan"]
                 (Some author_citations_per_year.year).

Definition citations_per_year (self : author.row)
  : list author_citations_per_year.row :=
  load_collection citations_per_year_relationship
    (filter (λ r, author_citations_per_year.author_id r = author.id self)
            (author_citations_per_year_rows db)).
End methods.
End Author.

(** ** class Publication *)

Module Publication.
Section methods.
Variable db : Db.

(** The backref of [Author.publications]. *)
Definition authors (self : publication.row) : list author.row :=
  e ← filter (λ e, author_publication.publication_id e
                   = Some (publication.id self))
             (author_publication_rows db);
  filter (λ a, author_publication.author_id e = Some (author.id a))
         (author_rows db).

(** [citations_per_year = db.relationship("PublicationCitationsPerYear",
    cascade="all, delete-orphan")]. *)
Definition citations_per_year_relationship
  : relationship publication_citations_per_year.row :=
  MkRelationship "PublicationCitationsPerYear" ["all"; "delete-orphan"] None.

Definition citations_per_year (self : publication.row)
  : list publication_citations_per_year.row :=
  load_collection citations_per_year_relationship
    (filter (λ r, publication_citations_per_year.publication_id r
                  = publication.id self)
            (publication_citations_per_year_rows db)).
End methods.
End Publication.

(** ** class Benchmark, class Suggestions: the declared columns *)

Module Benchmark.
Definition id : Column :=
  MkColumn "id" types.Integer None true None false true.
Definition name : Column :=
  MkColumn "name" (types.String 256) None false (Some false) true false.
Definition the_query : Column :=
  MkColumn "query" types.Text None false (Some false) false false.
Definition description : Column :=
  MkColumn "description" types.Text None false (Some true) false false.
End Benchmark.

Module Suggestions.
Definition id : Column :=
  MkColumn "id" types.Integer None true None false true.
Definition author_id : Column :=
  MkColumn "author_id" types.Integer (Some "author.id") false (Some true)
           false false.
Definition benchmark_id : Column :=
  MkColumn "benchmark_id" types.Integer (Some "benchmark.id") false None
           false false.
Definition scholar_website : Column :=
  MkColumn "scholar_website" types.Text None false None false false.
Definition rationale : Column :=
  MkColumn "rationale" types.Text None false None false false.
Definition created : Column :=
  MkColumn "created" types.DateTime None false None false false.

(** Each column with whether the row binds a value (not NULL) to it. *)
Definition bound (r : suggestions.row) : list (Column * bool) :=
  [ (id, true);
    (author_id, bool_decide (is_Some (suggestions.author_id r)));
    (benchmark_id, bool_decide (is_Some (suggestions.benchmark_id r)));
    (scholar_website, bool_decide (is_Some (suggestions.scholar_website r)));
    (rationale, bool_decide (is_Some (suggestions.rationale r)));
    (created, bool_decide (is_Some (suggestions.created r))) ].
End Suggestions.

(** ** The session: writes to the store *)

Module Session.

Definition with_author_rows (rows : list author.row) (db : Db) : Db :=
  MkDb (organization_rows db) rows (coauthor_rows db)
       (author_publication_rows db) (author_citations_per_year_rows db)
       (publication_rows db) (publication_citations_per_year_rows db)
       (benchmark_rows db) (suggestions_rows db).

Definition with_coauthor_rows (rows : list coauthor.row) (db : Db) : Db :=
  MkDb (organization_rows db) (author_rows db) rows
       (author_publication_rows db) (author_citations_per_year_rows db)
       (publication_rows db) (publication_citations_per_year_rows db)
       (benchmark_rows db) (suggestions_rows db).

Definition with_author_citations_per_year_rows
    (rows : list author_citations_per_year.row) (db : Db) : Db :=
  MkDb (organization_rows db) (author_rows db) (coauthor_rows db)
       (author_publication_rows db) rows
       (publication_rows db) (publication_citations_per_year_rows db)
       (benchmark_rows db) (suggestions_rows db).

Definition with_suggestions_rows (rows : list suggestions.row) (db : Db)
  : Db :=
  MkDb (organization_rows db) (author_rows db) (coauthor_rows db)
       (author_publication_rows db) (author_citations_per_year_rows db)
       (publication_rows db) (publication_citations_per_year_rows db)
       (benchmark_rows db) rows.

(** [INSERT INTO author]: the new row is stored last. *)
Definition add_author (a : author.row) (db : Db) : Db :=
  with_author_rows (author_rows db ++ [a]) db.

(** [INSERT INTO coauthor (author_id, coauthor_id)]: one directed edge. *)
Definition insert_coauthor (x y : author.row) (db : Db) : Db :=
  with_coauthor_rows
    (coauthor_rows db
     ++ [coauthor.Row (Some (author.id x)) (Some (author.id y))]) db.

(** A foreign key is NULL or names a stored key. *)
Definition references (fk : option Z) (keys : list Z) : bool :=
  match fk with
  | None => true
  | Some k => bool_decide (k ∈ keys)
  end.

(** [INSERT INTO suggestions]: refused when a column that does not accept
    NULL is unbound, when the primary key is taken, or when a foreign key
    names no row. *)
Definition add_suggestion (r : suggestions.row) (db : Db) : option Db :=
  if forallb (λ cb, nullable cb.1 || cb.2) (Suggestions.bound r)
     && bool_decide (suggestions.id r ∉ suggestions.id <$> suggestions_rows db)
     && references (suggestions.author_id r) (author.id <$> author_rows db)
     && references (suggestions.benchmark_id r)
                   (benchmark.id <$> benchmark_rows db)
  then Some (with_suggestions_rows (suggestions_rows db ++ [r]) db)
  else None.

End Session.

(** ** The hierarchy, as the specification speaks of it *)

(** The list a [descendants] loop builds: each child followed by what the
    recursive call returned for it. *)
Definition blocks {A : Type} (cs : list A) (subs : list (list A)) : list A :=
  concat (zip_with cons cs subs).

(** The dictionary [descendant_tree] appends for child [c], given the
    result [sub] of the recursive call. *)
Definition tree_node_of (db : Db) (c : organization.row)
    (sub : list Organization.tree_node) : Organization.tree_node :=
  Organization.TreeNode (organization.id c) (organization.name c) sub
                        (Organization.number_of_authors db c).

Module Hierarchy.
Section defs.
Variable db : Db.

(** The organization [k] parent links above [o]; [o] itself for [k = 0]. *)
Fixpoint nth_parent (o : organization.row) (k : nat)
  : option organization.row :=
  match k with
  | O => Some o
  | S k' => p ← Organization.parent db o; nth_parent p k'
  end.

(** The parent chain of [o] ends at a root. *)
Definition reaches_root (o : organization.row) : Prop :=
  ∃ k, nth_parent o (S k) = None.

(** [anc] is reached from [o] by one or more parent links. *)
Definition proper_ancestor (anc o : organization.row) : Prop :=
  ∃ k, nth_parent o (S k) = Some anc.

(** A cyclic parent assignment through [o]. *)
Definition on_cycle (o : organization.row) : Prop := proper_ancestor o o.

(** The forest invariant: every stored parent chain terminates. *)
Definition acyclic : Prop :=
  ∀ o, o ∈ organization_rows db → reaches_root o.

(** The primary key of the organization table. *)
Definition primary_key : Prop :=
  NoDup (organization.id <$> organization_rows db).

(** [rest] continues a chain downwards from [prev]: each element's parent
    is the element before it. *)
Fixpoint linked (prev : organization.row) (rest : list organization.row)
  : Prop :=
  match rest with
  | [] => True
  | y :: rest' => Organization.parent db y = Some prev ∧ linked y rest'
  end.

(** [c] is the chain [root -> ... -> org], root first. *)
Definition root_path (c : list organization.row) (org : organization.row)
  : Prop :=
  match c with
  | [] => False
  | r :: rest =>
    Organization.parent db r = None ∧ linked r rest ∧ last c = Some org
  end.

(** Depth-first pre-order below [o]: for each child in child order, the
    child and then the walk below that child. *)
#[warnings="-register-all"]
Inductive preorder : organization.row → list organization.row → Prop :=
| preorder_node o subs :
    Forall2 preorder (Organization.children db o) subs →
    preorder o (blocks (Organization.children db o) subs).
End defs.
End Hierarchy.

(** ** Counting, as the specification speaks of it *)

Fixpoint count_rows {R : Type} (P : R → bool) (rows : list R) : nat :=
  match rows with
  | [] => 0
  | r :: rest => (if P r then 1 else 0) + count_rows P rest
  end.

(** The author row references exactly this organization's id. *)
Definition direct_member (o : organization.row) (a : author.row) : bool :=
  bool_decide (author.organization_id a = Some (organization.id o)).

(** ** A small stored state used in the examples

    Organizations [A] (a root), [B] (child of [A]) and [C] (child of [B]),
    a second root [D], and a two-element cycle [P] <-> [Q]. *)

Module Sample.
Definition mk_organization (id : Z) (name : string) (parent_id : option Z)
  : organization.row :=
  organization.Row id name parent_id None None None None.

Definition mk_author (id : Z) (name : string) (organization_id : option Z)
  : author.row :=
  author.Row id name None organization_id None None None None None None
             None None None None None.

Definition org_A := mk_organization 1 "A" None.
Definition org_B := mk_organization 2 "B" (Some 1).
Definition org_C := mk_organization 3 "C" (Some 2).
Definition org_D := mk_organization 4 "D" None.
Definition org_P := mk_organization 5 "P" (Some 6).
Definition org_Q := mk_organization 6 "Q" (Some 5).

Definition author_X := mk_author 1 "X" (Some 3).
Definition author_Y := mk_author 2 "Y" (Some 1).
Definition author_Z := mk_author 3 "Z" None.
Definition author_W := mk_author 4 "W" (Some 5).

Definition mk_publication (id : Z) (title : string) : publication.row :=
  publication.Row id None (Some title) None None None None None None None
                  None None None.

Definition paper_1 := mk_publication 1 "Paper 1".
Definition paper_2 := mk_publication 2 "Paper 2".

(** Per-year rows, stored out of year order. *)
Definition author_years : list author_citations_per_year.row :=
  [ author_citations_per_year.Row 1 2015 30;
    author_citations_per_year.Row 2 2012 7;
    author_citations_per_year.Row 1 2013 10;
    author_citations_per_year.Row 1 2014 20 ].

Definition publication_years : list publication_citations_per_year.row :=
  [ publication_citations_per_year.Row 1 2016 5;
    publication_citations_per_year.Row 2 2015 1;
    publication_citations_per_year.Row 1 2014 3 ].

Definition benchmark_1 : benchmark.row :=
  benchmark.Row 1 "top" "h_index > 40" None.

(** A forest. *)
Definition forest : Db :=
  MkDb [org_A; org_B; org_C; org_D] [author_X; author_Y; author_Z]
       [] [author_publication.Row (Some 1) (Some 1)] author_years
       [paper_1; paper_2] publication_years [benchmark_1] [].

(** The same state after a cyclic parent assignment. *)
Definition cyclic : Db :=
  MkDb [org_A; org_B; org_C; org_D; org_P; org_Q]
       [author_X; author_Y; author_Z; author_W]
       [] [author_publication.Row (Some 1) (Some 1)] author_years
       [paper_1; paper_2] publication_years [benchmark_1] [].

(** A suggestion that names no benchmark. *)
Definition suggestion_without_benchmark : suggestions.row :=
  suggestions.Row 1 (Some 1) None (Some "https://scholar.example/x")
                  (Some "prolific") None.
End Sample.

(** ** The many-to-one sides of the per-year series *)

Definition get_author (db : Db) (pk : Z) : option author.row :=
  head (filter (λ a, author.id a = pk) (author_rows db)).

Definition get_publication (db : Db) (pk : Z) : option publication.row :=
  head (filter (λ p, publication.id p = pk) (publication_rows db)).

Module AuthorCitationsPerYear.
(** [author = db.relation('Author')]. *)
Definition author (db : Db) (self : author_citations_per_year.row)
  : option author.row :=
  get_author db (author_citations_per_year.author_id self).
End AuthorCitationsPerYear.

Module PublicationCitationsPerYear.
(** [publication = db.relation('Publication')]. *)
Definition publication (db : Db) (self : publication_citations_per_year.row)
  : option publication.row :=
  get_publication db (publication_citations_per_year.publication_id self).
End PublicationCitationsPerYear.

(** ** Primary keys of the other tables *)

Module Keys.
(** [author.id] and [publication.id]. *)
Definition author (db : Db) : Prop :=
  NoDup (author.id <$> author_rows db).

Definition publication (db : Db) : Prop :=
  NoDup (publication.id <$> publication_rows db).

(** The composite key [(author_id, year)]. *)
Definition author_year (rows : list author_citations_per_year.row) : Prop :=
  NoDup ((λ r, (author_citations_per_year.author_id r,
                author_citations_per_year.year r)) <$> rows).
End Keys.

(** ** Reading a descendant tree *)

Module Tree.
(** The ids of a dictionary and of everything nested under ['children'],
    the dictionary first. *)
Fixpoint ids (t : Organization.tree_node) : list Z :=
  match t with
  | Organization.TreeNode id _ children _ =>
    id :: (fix go (ts : list Organization.tree_node) : list Z :=
             match ts with
             | [] => []
             | t' :: ts' => ids t' ++ go ts'
             end) children
  end.

Definition forest_ids (ts : list Organization.tree_node) : list Z :=
  concat (ids <$> ts).

(** The sum of the ['number_of_authors'] entries of a dictionary and of
    everything nested under it. *)
Fixpoint total_authors (t : Organization.tree_node) : nat :=
  match t with
  | Organization.TreeNode _ _ children n =>
    (n + (fix go (ts : list Organization.tree_node) : nat :=
            match ts with
            | [] => 0
            | t' :: ts' => total_authors t' + go ts'
            end) children)%nat
  end.

Definition forest_total_authors (ts : list Organization.tree_node) : nat :=
  sum_list (total_authors <$> ts).
End Tree.

(** An author row references one of the organizations [orgs]. *)
Definition member_of (orgs : list organization.row) (a : author.row) : Prop :=
  author.organization_id a ∈ (Some ∘ organization.id) <$> orgs.

#[global] Instance member_of_dec orgs a : Decision (member_of orgs a).
Proof. unfold member_of. apply _. Defined.

(** The sample forest with its per-year rows stored in the opposite order. *)
Module Reordered.
Definition forest : Db :=
  Session.with_author_citations_per_year_rows
    (reverse Sample.author_years) Sample.forest.
End Reordered.

(* ================================================================== *)
(** * Properties *)

Section run_facts.
Context {A B : Type}.

Lemma bind_Done (m : run A) (f : A → run B) b :
  m ≫= f = Done b ↔ ∃ a, m = Done a ∧ f a = Done b.
Proof.
  destruct m as [a|]; simpl; split.
  - eauto.
  - by intros (a' & [= <-] & ?).
  - done.
  - by intros (? & ? & ?).
Qed.
End run_facts.

Section lookup_facts.
Variable db : Db.

Lemma get_organization_Some pk o :
  get_organization db pk = Some o →
  o ∈ organization_rows db ∧ organization.id o = pk.
Proof.
  unfold get_organization. intros H.
  apply head_Some_elem_of in H. by apply list_elem_of_filter in H as [? ?].
Qed.

Lemma get_organization_unique o :
  Hierarchy.primary_key db → o ∈ organization_rows db →
  get_organization db (organization.id o) = Some o.
Proof.
  unfold Hierarchy.primary_key, get_organization.
  induction (organization_rows db) as [|x l IH]; intros Hnd Hin.
  - by apply elem_of_nil in Hin.
  - rewrite fmap_cons in Hnd. apply NoDup_cons in Hnd as [Hx Hnd].
    rewrite filter_cons. apply elem_of_cons in Hin as [->|Hin].
    + by rewrite decide_True.
    + rewrite decide_False; [by apply IH|].
      intros Heq. apply Hx. rewrite Heq.
      by apply list_elem_of_fmap_2.
Qed.

Lemma parent_Some x p :
  Organization.parent db x = Some p →
  p ∈ organization_rows db ∧
  organization.parent_id x = Some (organization.id p).
Proof.
  unfold Organization.parent. destruct (organization.parent_id x) as [pid|];
    simpl; [|done].
  intros [? <-]%get_organization_Some. done.
Qed.

Lemma parent_of_child o c :
  Hierarchy.primary_key db → o ∈ organization_rows db →
  c ∈ Organization.children db o → Organization.parent db c = Some o.
Proof.
  intros Hpk Ho [Hc _]%list_elem_of_filter.
  unfold Organization.parent. rewrite Hc. simpl.
  by apply get_organization_unique.
Qed.

Lemma child_of_parent x p :
  x ∈ organization_rows db → Organization.parent db x = Some p →
  x ∈ Organization.children db p.
Proof.
  intros Hx [_ Hp]%parent_Some. by apply list_elem_of_filter.
Qed.
End lookup_facts.

(** ** Ancestor walks *)

Section ancestor_facts.
Variable db : Db.
Abbreviation parent := (Organization.parent db).
Abbreviation ancestors := (Organization.ancestors db).
Abbreviation nth_parent := (Hierarchy.nth_parent db).

Lemma nth_parent_S_None o k :
  nth_parent o k = None → nth_parent o (S k) = None.
Proof.
  revert o. induction k as [|k IH]; intros o; [done|].
  simpl. destruct (parent o) as [p|]; simpl; [|done]. apply IH.
Qed.

Lemma nth_parent_None_le o k k' :
  (k ≤ k')%nat → nth_parent o k = None → nth_parent o k' = None.
Proof. induction 1; auto using nth_parent_S_None. Qed.

Lemma nth_parent_add o k j :
  nth_parent o (k + j) = x ← nth_parent o k; Hierarchy.nth_parent db x j.
Proof.
  revert o. induction k as [|k IH]; intros o; [done|].
  simpl. destruct (parent o) as [p|]; simpl; [apply IH|done].
Qed.

Lemma nth_parent_snoc o k :
  nth_parent o (S k) = x ← nth_parent o k; parent x.
Proof.
  replace (S k) with (k + 1)%nat by lia. rewrite nth_parent_add.
  destruct (nth_parent o k) as [x|]; simpl; [|done].
  by destruct (parent x).
Qed.

Lemma ancestors_mono fuel fuel' o l :
  (fuel ≤ fuel')%nat → ancestors fuel o = Done l → ancestors fuel' o = Done l.
Proof.
  revert fuel' o l. induction fuel as [|fuel IH]; intros fuel' o l Hle;
    [done|].
  destruct fuel' as [|fuel']; [lia|]. simpl.
  destruct (parent o) as [p|]; [|done].
  intros (rest & Hrest & Heq)%bind_Done.
  rewrite (IH fuel' p rest); [done|lia|done].
Qed.

(** With enough fuel the walk returns the parent chain, nearest first. *)
Lemma ancestors_chain o k :
  nth_parent o (S k) = None →
  ∃ l, (∀ fuel, (k < fuel)%nat → ancestors fuel o = Done l) ∧
       (∀ i, l !! i = nth_parent o (S i)) ∧
       (length l ≤ k)%nat.
Proof.
  revert o. induction k as [|k IH]; intros o Hk.
  - simpl in Hk. destruct (parent o) as [p|] eqn:Hp; [done|].
    exists []. split_and!; [|by intros i; simpl; rewrite Hp|done].
    intros [|fuel] ?; [lia|]. simpl. by rewrite Hp.
  - change (nth_parent o (S (S k))) with (p ← parent o; nth_parent p (S k))
      in Hk.
    destruct (parent o) as [p|] eqn:Hp.
    + destruct (IH p Hk) as (l & Hrun & Hidx & Hlen).
      exists (p :: l). split_and!.
      * intros [|fuel] ?; [lia|]. simpl. rewrite Hp.
        rewrite (Hrun fuel); [done|lia].
      * intros [|i]; simpl; rewrite Hp; [done|]. apply Hidx.
      * simpl. lia.
    + exists []. split_and!; [|by intros i; simpl; rewrite Hp|simpl; lia].
      intros [|fuel] ?; [lia|]. simpl. by rewrite Hp.
Qed.

(** Without a root above [o] no amount of fuel is enough. *)
Lemma ancestors_unbounded o :
  ¬ Hierarchy.reaches_root db o → ∀ fuel, ancestors fuel o = OutOfFuel.
Proof.
  intros Hnr fuel. revert o Hnr.
  induction fuel as [|fuel IH]; intros o Hnr; [done|].
  simpl. destruct (parent o) as [p|] eqn:Hp.
  - rewrite IH; [done|]. intros [k Hk]. apply Hnr. exists (S k).
    change (nth_parent o (S (S k))) with (q ← parent o; nth_parent q (S k)).
    by rewrite Hp.
  - exfalso. apply Hnr. exists 0%nat. simpl. by rewrite Hp.
Qed.

Lemma on_cycle_no_root o :
  Hierarchy.on_cycle db o → ¬ Hierarchy.reaches_root db o.
Proof.
  intros [k Hk] [j Hj].
  assert (Hall : ∀ n, nth_parent o (n * S k) = Some o).
  { induction n as [|n IHn]; [done|].
    replace (S n * S k)%nat with (S k + n * S k)%nat by lia.
    rewrite nth_parent_add, Hk. simpl. apply IHn. }
  specialize (Hall (S j)).
  rewrite (nth_parent_None_le o (S j) (S j * S k)) in Hall; [done|nia|done].
Qed.

(** Walking up from the end of a root-first chain. *)
Lemma ancestors_linked r rest org la fuel :
  Hierarchy.linked db r rest → last (r :: rest) = Some org →
  ancestors fuel r = Done la →
  ancestors (fuel + length rest) org
  = Done (tail (reverse (r :: rest)) ++ la).
Proof.
  revert r la fuel. induction rest as [|y rest IH]; intros r la fuel.
  - intros _ [= <-] Hla. simpl. by rewrite Nat.add_0_r.
  - intros [Hy Hl] Hlast Hla.
    assert (Hstep : ancestors (S fuel) y = Done (r :: la)).
    { simpl. by rewrite Hy, Hla. }
    specialize (IH y (r :: la) (S fuel) Hl Hlast Hstep).
    replace (fuel + length (y :: rest))%nat with (S fuel + length rest)%nat
      by (simpl; lia).
    rewrite IH. f_equal.
    rewrite (reverse_cons (y :: rest) r), (reverse_cons rest y).
    destruct (reverse rest) as [|z zs]; simpl; by rewrite <-?app_assoc.
Qed.

Lemma reverse_last_tail (c : list organization.row) org :
  last c = Some org → reverse c = org :: tail (reverse c).
Proof.
  induction c as [|x c _] using rev_ind; [done|].
  rewrite last_snoc. intros [= ->]. by rewrite reverse_snoc.
Qed.

Lemma ancestors_root_path c org fuel :
  Hierarchy.root_path db c org → (length c ≤ fuel)%nat →
  ancestors fuel org = Done (tail (reverse c)) ∧
  reverse c = org :: tail (reverse c).
Proof.
  destruct c as [|r rest]; [done|]. intros (Hr & Hl & Hlast) Hfuel.
  split; [|by apply reverse_last_tail].
  assert (H1 : ancestors 1 r = Done []) by (simpl; by rewrite Hr).
  pose proof (ancestors_linked r rest org [] 1 Hl Hlast H1) as H.
  rewrite app_nil_r in H.
  eapply ancestors_mono; [|exact H]. simpl in Hfuel. lia.
Qed.
End ancestor_facts.

(** ** Rendering the ancestor chain *)

(** C2: on a parent chain that ends at a root, [ancestors] returns the chain
    from the direct parent up to and including the root, nearest first, and
    it is empty for an organization without parent; when the chain is not
    empty [ancestor_tree] is the names of the reversed chain joined by
    [" :: "], and for a root organization it is the absent value. *)
Theorem ancestors_nearest_first_tree_root_first db o k :
  Hierarchy.nth_parent db o (S k) = None →
  ∃ l,
    (∀ i, l !! i = Hierarchy.nth_parent db o (S i)) ∧
    (∀ r, last l = Some r → Organization.parent db r = None) ∧
    (Organization.parent db o = None → l = []) ∧
    ∀ fuel, (k < fuel)%nat →
      Organization.ancestors db fuel o = Done l ∧
      (l ≠ [] →
       Organization.ancestor_tree db fuel o
       = Done (PyStr (str_join " :: " (organization.name <$> reverse l)))) ∧
      (l = [] → Organization.ancestor_tree db fuel o = Done PyNone).
Proof.
  intros Hk. destruct (ancestors_chain db o k Hk) as (l & Hrun & Hidx & Hlen).
  exists l. split_and!.
  - done.
  - intros r Hr. rewrite last_lookup in Hr.
    destruct l as [|x l']; [done|]. simpl in Hr.
    pose proof (Hidx (length l')) as H1. rewrite Hr in H1.
    pose proof (Hidx (S (length l'))) as H2.
    rewrite lookup_ge_None_2 in H2 by (simpl; lia).
    rewrite nth_parent_snoc, <-H1 in H2. done.
  - intros Hp. specialize (Hidx 0%nat). simpl in Hidx. rewrite Hp in Hidx.
    by destruct l.
  - intros fuel Hfuel. specialize (Hrun fuel Hfuel). split_and!; [done|..].
    + intros Hne. unfold Organization.ancestor_tree. rewrite Hrun. simpl.
      by destruct l.
    + intros ->. unfold Organization.ancestor_tree. by rewrite Hrun.
Qed.

Lemma ancestors_nearest_first_tree_root_first_witness :
  Hierarchy.nth_parent Sample.forest Sample.org_C 3 = None ∧
  ∃ l,
    (∀ i, l !! i = Hierarchy.nth_parent Sample.forest Sample.org_C (S i)) ∧
    (∀ r, last l = Some r → Organization.parent Sample.forest r = None) ∧
    (Organization.parent Sample.forest Sample.org_C = None → l = []) ∧
    ∀ fuel, (2 < fuel)%nat →
      Organization.ancestors Sample.forest fuel Sample.org_C = Done l ∧
      (l ≠ [] →
       Organization.ancestor_tree Sample.forest fuel Sample.org_C
       = Done (PyStr (str_join " :: " (organization.name <$> reverse l)))) ∧
      (l = [] →
       Organization.ancestor_tree Sample.forest fuel Sample.org_C
       = Done PyNone).
Proof.
  split; [reflexivity|].
  apply (ancestors_nearest_first_tree_root_first
           Sample.forest Sample.org_C 2).
  reflexivity.
Defined.

Example ancestors_C :
  Organization.ancestors Sample.forest 3 Sample.org_C
  = Done [Sample.org_B; Sample.org_A].
Proof. reflexivity. Qed.

Example ancestor_ids_C :
  Organization.ancestor_ids Sample.forest 3 Sample.org_C = Done [2; 1].
Proof. reflexivity. Qed.

Example children_ids_A :
  Organization.children_ids Sample.forest Sample.org_A = [2].
Proof. reflexivity. Qed.

Example organization_ids_X :
  Author.organization_ids Sample.forest 3 Sample.author_X = Done [1; 2; 3].
Proof. reflexivity. Qed.

Example ancestor_tree_C :
  Organization.ancestor_tree Sample.forest 3 Sample.org_C
  = Done (PyStr "A :: B").
Proof. reflexivity. Qed.

(** C1: for an author whose organization ends the chain
    [root -> ... -> organization], [organization_tree] is the names of that
    chain, root first, joined by [" :: "]; for an author without
    organization it is the empty string. *)
Theorem organization_tree_joined_chain db a :
  (Author.organization db a = None →
   ∀ fuel, Author.organization_tree db fuel a = Done (PyStr "")) ∧
  (∀ org c,
     Author.organization db a = Some org →
     Hierarchy.root_path db c org →
     ∀ fuel, (length c ≤ fuel)%nat →
       Author.organization_tree db fuel a
       = Done (PyStr (str_join " :: " (organization.name <$> c)))).
Proof.
  split.
  - intros Hnone fuel. unfold Author.organization_tree. by rewrite Hnone.
  - intros org c Horg Hpath fuel Hfuel.
    destruct (ancestors_root_path db c org fuel Hpath Hfuel) as [Hrun Hrev].
    unfold Author.organization_tree. rewrite Horg, Hrun. simpl.
    do 3 f_equal. change (org :: tail (reverse c)) with
      ([org] ++ tail (reverse c)).
    simpl. rewrite <-Hrev. by rewrite reverse_involutive.
Qed.

Lemma organization_tree_joined_chain_witness :
  Author.organization_tree Sample.forest 0 Sample.author_Z = Done (PyStr "") ∧
  Author.organization_tree Sample.forest 3 Sample.author_X
  = Done (PyStr "A :: B :: C").
Proof.
  destruct (organization_tree_joined_chain Sample.forest Sample.author_Z)
    as [Hnone _].
  destruct (organization_tree_joined_chain Sample.forest Sample.author_X)
    as [_ Hsome].
  split.
  - apply Hnone. reflexivity.
  - apply (Hsome Sample.org_C [Sample.org_A; Sample.org_B; Sample.org_C]).
    + reflexivity.
    + repeat split.
    + simpl. lia.
Defined.

(** C10: for a root organization [ancestor_tree] returns [None], while
    [organization_tree] of an author without organization returns the empty
    string; the two results are different values and only the second is a
    string. *)
Theorem root_ancestor_tree_None_vs_empty_string db o a fuel :
  Organization.parent db o = None →
  Author.organization db a = None →
  Organization.ancestor_tree db (S fuel) o = Done PyNone ∧
  Author.organization_tree db (S fuel) a = Done (PyStr "") ∧
  Organization.ancestor_tree db (S fuel) o
  ≠ Author.organization_tree db (S fuel) a ∧
  is_str <$> Organization.ancestor_tree db (S fuel) o = Done false ∧
  is_str <$> Author.organization_tree db (S fuel) a = Done true.
Proof.
  intros Hp Ho.
  assert (H1 : Organization.ancestor_tree db (S fuel) o = Done PyNone).
  { unfold Organization.ancestor_tree. simpl. by rewrite Hp. }
  assert (H2 : Author.organization_tree db (S fuel) a = Done (PyStr "")).
  { unfold Author.organization_tree. by rewrite Ho. }
  rewrite H1, H2. done.
Qed.

Lemma root_ancestor_tree_None_vs_empty_string_witness :
  Organization.ancestor_tree Sample.forest 1 Sample.org_A = Done PyNone ∧
  Author.organization_tree Sample.forest 1 Sample.author_Z
  = Done (PyStr "") ∧
  Organization.ancestor_tree Sample.forest 1 Sample.org_A
  ≠ Author.organization_tree Sample.forest 1 Sample.author_Z ∧
  is_str <$> Organization.ancestor_tree Sample.forest 1 Sample.org_A
  = Done false ∧
  is_str <$> Author.organization_tree Sample.forest 1 Sample.author_Z
  = Done true.
Proof.
  apply (root_ancestor_tree_None_vs_empty_string
           Sample.forest Sample.org_A Sample.author_Z 0); reflexivity.
Defined.

(** ** Descendant walks *)

Section block_facts.
Context {A : Type}.
Implicit Types (cs : list A) (subs : list (list A)).

Lemma Forall2_choice {B : Type} (P : A → B → Prop) cs :
  (∀ c, c ∈ cs → ∃ b, P c b) → ∃ bs, Forall2 P cs bs.
Proof.
  induction cs as [|c cs IH]; intros H.
  - exists []. constructor.
  - destruct (H c) as [b Hb]; [left|].
    destruct IH as [bs Hbs]; [intros c' Hc'; apply H; by right|].
    exists (b :: bs). by constructor.
Qed.

Lemma blocks_elem (P : A → list A → Prop) cs subs x :
  Forall2 P cs subs → x ∈ blocks cs subs →
  ∃ pre post c dc,
    c ∈ cs ∧ P c dc ∧ x ∈ c :: dc ∧
    blocks cs subs = pre ++ (c :: dc) ++ post.
Proof.
  unfold blocks. induction 1 as [|c dc cs subs Hc Hrest IH]; simpl.
  - by intros ?%elem_of_nil.
  - rewrite elem_of_cons, elem_of_app. intros [Hx|[Hx|Hx]].
    + exists [], (concat (zip_with cons cs subs)), c, dc.
      split_and!; [left|done|subst; left|done].
    + exists [], (concat (zip_with cons cs subs)), c, dc.
      split_and!; [left|done|by right|done].
    + destruct (IH Hx) as (pre & post & c' & dc' & Hc' & HP & Hx' & Heq).
      exists (c :: dc ++ pre), post, c', dc'.
      split_and!; [by right|done|done|].
      rewrite Heq. simpl. by rewrite <-app_assoc.
Qed.

Lemma blocks_head (P : A → list A → Prop) cs subs c :
  Forall2 P cs subs → c ∈ cs → c ∈ blocks cs subs.
Proof.
  unfold blocks. induction 1 as [|c' dc cs subs Hc Hrest IH]; simpl.
  - by intros ?%elem_of_nil.
  - intros [->|Hin]%elem_of_cons; [left|].
    right. apply elem_of_app. right. by apply IH.
Qed.

Lemma blocks_NoDup (P : A → list A → Prop) (R : A → A → Prop) cs subs :
  NoDup cs → Forall2 P cs subs →
  (∀ c dc, c ∈ cs → P c dc → NoDup (c :: dc)) →
  (∀ c dc x, c ∈ cs → P c dc → x ∈ c :: dc → R c x) →
  (∀ c1 c2 x, c1 ∈ cs → c2 ∈ cs → R c1 x → R c2 x → c1 = c2) →
  NoDup (blocks cs subs).
Proof.
  unfold blocks. intros Hnd HF. revert Hnd.
  induction HF as [|c dc cs subs Hc Hrest IH]; intros Hnd Hblock HR Hsep.
  - constructor.
  - apply NoDup_cons in Hnd as [Hc_notin Hnd]. simpl.
    change (NoDup ((c :: dc) ++ concat (zip_with cons cs subs))).
    apply NoDup_app. split_and!.
    + apply Hblock; [left|done].
    + intros x Hx1 Hx2.
      destruct (blocks_elem P cs subs x Hrest Hx2)
        as (_ & _ & c' & dc' & Hc' & HP' & Hx' & _).
      apply Hc_notin.
      assert (c = c') as ->; [|done].
      apply (Hsep c c' x); [left|by right|..].
      * apply (HR c dc); [left|done|done].
      * apply (HR c' dc'); [by right|done|done].
    + apply IH; [done|..].
      * intros c' dc' ? ?. apply Hblock; [by right|done].
      * intros c' dc' x ? ? ?. apply (HR c' dc'); [by right|done|done].
      * intros c1 c2 x ? ? ? ?. apply (Hsep c1 c2 x); [by right|by right|..];
          done.
Qed.
End block_facts.

Section descendant_facts.
Variable db : Db.
Abbreviation rows := (organization_rows db).
Abbreviation parent := (Organization.parent db).
Abbreviation children := (Organization.children db).
Abbreviation descendants := (Organization.descendants db).
Abbreviation nth_parent := (Hierarchy.nth_parent db).
Abbreviation proper_ancestor := (Hierarchy.proper_ancestor db).

Lemma for_each_descendants fuel cs acc r :
  for_each cs acc
    (λ l c, ds ← descendants fuel c; Done ((l ++ [c]) ++ ds)) = Done r ↔
  ∃ subs, Forall2 (λ c dc, descendants fuel c = Done dc) cs subs ∧
          r = acc ++ blocks cs subs.
Proof.
  revert acc r. induction cs as [|c cs IH]; intros acc r; simpl.
  - split.
    + intros [= <-]. exists []. split; [constructor|].
      by rewrite app_nil_r.
    + intros (subs & HF & ->). apply Forall2_nil_inv_l in HF as ->.
      by rewrite app_nil_r.
  - rewrite bind_Done. split.
    + intros (s' & (dc & Hdc & [= <-])%bind_Done & Hrest).
      apply IH in Hrest as (subs & HF & ->).
      exists (dc :: subs). split; [by constructor|].
      unfold blocks. simpl. by rewrite <-!app_assoc.
    + intros (subs & HF & ->).
      apply Forall2_cons_inv_l in HF as (dc & subs' & Hdc & HF & ->).
      exists ((acc ++ [c]) ++ dc). split; [by rewrite Hdc|].
      apply IH. exists subs'. split; [done|].
      unfold blocks. simpl. by rewrite <-!app_assoc.
Qed.

Lemma descendants_S fuel o r :
  descendants (S fuel) o = Done r ↔
  ∃ subs, Forall2 (λ c dc, descendants fuel c = Done dc) (children o) subs ∧
          r = blocks (children o) subs.
Proof.
  simpl. destruct (children o) as [|c cs] eqn:Hcs.
  - split.
    + intros [= <-]. exists []. split; [constructor|done].
    + intros (subs & HF & ->). by apply Forall2_nil_inv_l in HF as ->.
  - rewrite for_each_descendants. by setoid_rewrite app_nil_l.
Qed.

Lemma descendants_mono fuel fuel' o r :
  (fuel ≤ fuel')%nat → descendants fuel o = Done r →
  descendants fuel' o = Done r.
Proof.
  revert fuel' o r. induction fuel as [|fuel IH]; intros fuel' o r Hle;
    [done|].
  destruct fuel' as [|fuel']; [lia|].
  rewrite !descendants_S. intros (subs & HF & ->). exists subs.
  split; [|done].
  eapply Forall2_impl; [exact HF|]. intros c dc. apply IH. lia.
Qed.

(** "Node, then its subtree": every organization in the walk is followed
    at once by its own walk. *)
Lemma descendants_block fuel o r x :
  descendants fuel o = Done r → x ∈ r →
  ∃ l1 l3 dx, descendants fuel x = Done dx ∧ r = l1 ++ x :: dx ++ l3.
Proof.
  revert o r x. induction fuel as [|fuel IH]; intros o r x; [done|].
  intros (subs & HF & ->)%descendants_S Hx.
  destruct (blocks_elem _ _ _ _ HF Hx)
    as (pre & post & c & dc & Hc & Hdc & Hxc & Heq).
  apply elem_of_cons in Hxc as [->|Hxc].
  - exists pre, post, dc. split; [|done].
    eapply descendants_mono; [|exact Hdc]. lia.
  - destruct (IH c dc x Hdc Hxc) as (l1 & l3 & dx & Hdx & ->).
    exists (pre ++ c :: l1), (l3 ++ post), dx. split.
    + eapply descendants_mono; [|exact Hdx]. lia.
    + rewrite Heq. simpl. rewrite <-!app_assoc. simpl.
      by rewrite <-!app_assoc.
Qed.

Lemma descendants_preorder fuel o r :
  descendants fuel o = Done r → Hierarchy.preorder db o r.
Proof.
  revert o r. induction fuel as [|fuel IH]; intros o r; [done|].
  intros (subs & HF & ->)%descendants_S. constructor.
  eapply Forall2_impl; [exact HF|]. intros c dc. apply IH.
Qed.
End descendant_facts.

Section forest_facts.
Variable db : Db.
Hypothesis Hpk : Hierarchy.primary_key db.
Hypothesis Hacyclic : Hierarchy.acyclic db.
Abbreviation rows := (organization_rows db).
Abbreviation parent := (Organization.parent db).
Abbreviation children := (Organization.children db).
Abbreviation descendants := (Organization.descendants db).
Abbreviation nth_parent := (Hierarchy.nth_parent db).
Abbreviation proper_ancestor := (Hierarchy.proper_ancestor db).

Lemma children_in_rows o c : c ∈ children o → c ∈ rows.
Proof. by intros [_ ?]%list_elem_of_filter. Qed.

Lemma rows_NoDup : NoDup rows.
Proof. eapply NoDup_fmap_1. exact Hpk. Qed.

Lemma id_inj_rows x y :
  x ∈ rows → y ∈ rows → organization.id x = organization.id y → x = y.
Proof.
  intros Hx Hy Heq.
  pose proof (get_organization_unique db x Hpk Hx) as H1.
  pose proof (get_organization_unique db y Hpk Hy) as H2.
  rewrite Heq in H1. congruence.
Qed.

Lemma nth_parent_child o c k :
  o ∈ rows → c ∈ children o → nth_parent c (S k) = nth_parent o k.
Proof.
  intros Ho Hc. simpl. by rewrite (parent_of_child db o c Hpk Ho Hc).
Qed.

Lemma no_cycle o : o ∈ rows → ¬ Hierarchy.on_cycle db o.
Proof. intros Ho Hcyc. by apply (on_cycle_no_root db o Hcyc), Hacyclic. Qed.

(** A bound on the depth of every stored organization. *)
Lemma depth_bound :
  ∃ D, ∀ o, o ∈ rows → nth_parent o (S D) = None.
Proof.
  assert (H : ∀ l : list organization.row,
             (∀ o, o ∈ l → Hierarchy.reaches_root db o) →
             ∃ D, ∀ o, o ∈ l → nth_parent o (S D) = None).
  { induction l as [|x l IH]; intros Hl.
    - exists 0%nat. by intros o ?%elem_of_nil.
    - destruct IH as [D HD]; [intros o Ho; apply Hl; by right|].
      destruct (Hl x) as [k Hk]; [left|].
      exists (D `max` k)%nat. intros o [->|Ho]%elem_of_cons.
      + eapply nth_parent_None_le; [|exact Hk]. lia.
      + eapply nth_parent_None_le; [|exact (HD o Ho)]. lia. }
  apply H, Hacyclic.
Qed.

Lemma descendants_terminates_at D m o :
  (∀ x, x ∈ rows → nth_parent x (S D) = None) →
  o ∈ rows → is_Some (nth_parent o (D - m)) →
  ∃ r, descendants (S m) o = Done r.
Proof.
  intros HD. revert o. induction m as [|m IH]; intros o Ho Hdepth.
  - exists []. simpl. destruct (children o) as [|c cs] eqn:Hcs; [done|].
    exfalso. assert (Hc : c ∈ children o) by (rewrite Hcs; left).
    pose proof (HD c (children_in_rows o c Hc)) as Hnone.
    rewrite (nth_parent_child o c D Ho Hc) in Hnone.
    rewrite Nat.sub_0_r, Hnone in Hdepth. by destruct Hdepth.
  - destruct (Forall2_choice (λ c dc, descendants (S m) c = Done dc)
                (children o)) as [subs HF].
    { intros c Hc. apply IH; [by eapply children_in_rows|].
      destruct (D - m)%nat as [|j] eqn:Hj; [done|].
      rewrite (nth_parent_child o c j Ho Hc).
      by replace j with (D - S m)%nat by lia. }
    exists (blocks (children o) subs). apply descendants_S. eauto.
Qed.

Lemma descendants_terminates :
  ∃ n, ∀ o, o ∈ rows → ∃ r, descendants n o = Done r.
Proof.
  destruct depth_bound as [D HD]. exists (S D). intros o Ho.
  apply (descendants_terminates_at D D o HD Ho).
  by rewrite Nat.sub_diag.
Qed.

Lemma proper_ancestor_parent o c :
  o ∈ rows → c ∈ children o → proper_ancestor o c.
Proof.
  intros Ho Hc. exists 0%nat. by rewrite (nth_parent_child o c 0 Ho Hc).
Qed.

Lemma proper_ancestor_trans a b c :
  proper_ancestor a b → proper_ancestor b c → proper_ancestor a c.
Proof.
  intros [k Hk] [j Hj]. exists (j + S k)%nat.
  change (S (j + S k)) with (S j + S k)%nat.
  by rewrite nth_parent_add, Hj.
Qed.

Lemma descendants_sound fuel o r x :
  o ∈ rows → descendants fuel o = Done r → x ∈ r →
  x ∈ rows ∧ proper_ancestor o x.
Proof.
  revert o r x. induction fuel as [|fuel IH]; intros o r x Ho; [done|].
  intros (subs & HF & ->)%descendants_S Hx.
  destruct (blocks_elem _ _ _ _ HF Hx)
    as (_ & _ & c & dc & Hc & Hdc & Hxc & _).
  apply elem_of_cons in Hxc as [->|Hxc].
  - split; [by eapply children_in_rows|by apply proper_ancestor_parent].
  - destruct (IH c dc x (children_in_rows o c Hc) Hdc Hxc) as [Hxr Hanc].
    split; [done|].
    eapply proper_ancestor_trans; [|exact Hanc].
    by apply proper_ancestor_parent.
Qed.

Lemma descendants_complete fuel o r x :
  descendants fuel o = Done r → x ∈ rows → proper_ancestor o x → x ∈ r.
Proof.
  intros Hr Hx [k Hk]. revert x Hx Hk.
  induction k as [|k IH]; intros x Hx Hk.
  - simpl in Hk. destruct (parent x) as [p|] eqn:Hp; [|done].
    simpl in Hk. injection Hk as ->.
    pose proof (child_of_parent db x o Hx Hp) as Hc.
    destruct fuel as [|fuel]; [done|].
    apply descendants_S in Hr as (subs & HF & ->).
    by eapply blocks_head.
  - change (nth_parent x (S (S k))) with (p ← parent x; nth_parent p (S k))
      in Hk.
    destruct (parent x) as [p|] eqn:Hp; [|done]. simpl in Hk.
    pose proof (parent_Some db x p Hp) as [Hpr _].
    pose proof (IH p Hpr Hk) as Hpin.
    destruct (descendants_block db fuel o r p Hr Hpin)
      as (l1 & l3 & dp & Hdp & ->).
    destruct fuel as [|fuel]; [done|].
    apply descendants_S in Hdp as (subs & HF & ->).
    apply elem_of_app. right. right. apply elem_of_app. left.
    eapply blocks_head; [exact HF|].
    by apply child_of_parent.
Qed.

(** Two children of [o] above the same organization coincide. *)
Lemma child_above_unique o c1 c2 x k1 k2 :
  o ∈ rows → c1 ∈ children o → c2 ∈ children o →
  nth_parent x k1 = Some c1 → nth_parent x k2 = Some c2 →
  (k1 ≤ k2)%nat → c1 = c2.
Proof.
  intros Ho Hc1 Hc2 H1 H2 Hle.
  replace k2 with (k1 + (k2 - k1))%nat in H2 by lia.
  rewrite nth_parent_add, H1 in H2. simpl in H2.
  destruct (k2 - k1)%nat as [|j]; [by injection H2|].
  exfalso. apply (no_cycle o Ho). exists j.
  rewrite nth_parent_snoc.
  rewrite (nth_parent_child o c1 j Ho Hc1) in H2. rewrite H2. simpl.
  by apply parent_of_child.
Qed.

Lemma descendants_NoDup fuel o r :
  o ∈ rows → descendants fuel o = Done r → NoDup r.
Proof.
  revert o r. induction fuel as [|fuel IH]; intros o r Ho; [done|].
  intros (subs & HF & ->)%descendants_S.
  apply (blocks_NoDup (λ c dc, descendants fuel c = Done dc)
           (λ c x, ∃ k, nth_parent x k = Some c)); [|done|..].
  - apply NoDup_filter, rows_NoDup.
  - intros c dc Hc Hdc. apply NoDup_cons. split.
    + intros Hin.
      destruct (descendants_sound fuel c dc c (children_in_rows o c Hc)
                  Hdc Hin) as [Hcr Hcyc].
      by apply (no_cycle c Hcr).
    + apply (IH c); [by eapply children_in_rows|done].
  - intros c dc x Hc Hdc [->|Hx]%elem_of_cons.
    + by exists 0%nat.
    + destruct (descendants_sound fuel c dc x (children_in_rows o c Hc)
                  Hdc Hx) as [_ [k Hk]]. eauto.
  - intros c1 c2 x Hc1 Hc2 [k1 H1] [k2 H2].
    destruct (Nat.le_ge_cases k1 k2).
    + by apply (child_above_unique o c1 c2 x k1 k2).
    + symmetry. by apply (child_above_unique o c2 c1 x k2 k1).
Qed.
End forest_facts.

(** C3: in a forest with unique ids, [descendants] enumerates the
    organizations below [o] in depth-first pre-order (each child in child
    order, followed at once by its own walk), and [descendant_ids] is that
    list mapped to ids in the same order, without duplicates, holding exactly
    the ids of the organizations that have [o] as a proper ancestor, so not
    the id of [o]. *)
Theorem descendants_preorder_exact db o :
  Hierarchy.primary_key db → Hierarchy.acyclic db →
  o ∈ organization_rows db →
  ∃ n ds,
    (∀ fuel, (n ≤ fuel)%nat →
       Organization.descendants db fuel o = Done ds ∧
       Organization.descendant_ids db fuel o
       = Done (organization.id <$> ds)) ∧
    Hierarchy.preorder db o ds ∧
    (∀ x, x ∈ ds →
       ∃ l1 l3 dx,
         (∀ fuel, (n ≤ fuel)%nat →
            Organization.descendants db fuel x = Done dx) ∧
         Hierarchy.preorder db x dx ∧
         ds = l1 ++ x :: dx ++ l3) ∧
    NoDup (organization.id <$> ds) ∧
    (∀ x, x ∈ ds ↔
          x ∈ organization_rows db ∧ Hierarchy.proper_ancestor db o x) ∧
    (∀ i, i ∈ organization.id <$> ds ↔
          ∃ x, x ∈ organization_rows db ∧ organization.id x = i ∧
               Hierarchy.proper_ancestor db o x) ∧
    organization.id o ∉ organization.id <$> ds.
Proof.
  intros Hpk Hacyclic Ho.
  destruct (descendants_terminates db Hpk Hacyclic) as [n Hn].
  destruct (Hn o Ho) as [ds Hds]. exists n, ds.
  assert (Hmem : ∀ x, x ∈ ds ↔
            x ∈ organization_rows db ∧ Hierarchy.proper_ancestor db o x).
  { intros x. split.
    - by apply (descendants_sound db Hpk n o ds x).
    - intros [Hx Hanc]. by apply (descendants_complete db n o ds x). }
  assert (Hsub : ∀ x, x ∈ ds → x ∈ organization_rows db)
    by (intros x Hx; by apply Hmem).
  split_and!.
  - intros fuel Hfuel.
    assert (Organization.descendants db fuel o = Done ds) as Hrun
      by (by eapply descendants_mono).
    split; [done|]. unfold Organization.descendant_ids. by rewrite Hrun.
  - by eapply descendants_preorder.
  - intros x Hx.
    destruct (descendants_block db n o ds x Hds Hx)
      as (l1 & l3 & dx & Hdx & Heq).
    exists l1, l3, dx. split_and!; [|by eapply descendants_preorder|done].
    intros fuel Hfuel. by eapply descendants_mono.
  - apply NoDup_fmap_2_strong.
    + intros x y Hx Hy. apply (id_inj_rows db Hpk); auto.
    + by apply (descendants_NoDup db Hpk Hacyclic n o).
  - done.
  - intros i. rewrite list_elem_of_fmap. split.
    + intros (x & -> & Hx). exists x. apply Hmem in Hx as [? ?]. done.
    + intros (x & Hx & <- & Hanc). exists x. split; [done|]. by apply Hmem.
  - intros (x & Heq & Hx)%list_elem_of_fmap.
    assert (x = o) as ->.
    { apply (id_inj_rows db Hpk); [by apply Hsub|done|done]. }
    apply Hmem in Hx as [_ Hcyc]. by apply (no_cycle db Hacyclic o Ho).
Qed.

Lemma sample_forest_primary_key : Hierarchy.primary_key Sample.forest.
Proof. apply (bool_decide_unpack _). reflexivity. Qed.

Lemma sample_forest_acyclic : Hierarchy.acyclic Sample.forest.
Proof.
  intros o Ho. exists 2%nat.
  repeat (apply elem_of_cons in Ho as [->|Ho]; [reflexivity|]).
  by apply elem_of_nil in Ho.
Qed.

Lemma descendants_preorder_exact_witness :
  Hierarchy.primary_key Sample.forest ∧ Hierarchy.acyclic Sample.forest ∧
  Sample.org_A ∈ organization_rows Sample.forest ∧
  ∃ n ds,
    (∀ fuel, (n ≤ fuel)%nat →
       Organization.descendants Sample.forest fuel Sample.org_A = Done ds ∧
       Organization.descendant_ids Sample.forest fuel Sample.org_A
       = Done (organization.id <$> ds)) ∧
    Hierarchy.preorder Sample.forest Sample.org_A ds ∧
    (∀ x, x ∈ ds →
       ∃ l1 l3 dx,
         (∀ fuel, (n ≤ fuel)%nat →
            Organization.descendants Sample.forest fuel x = Done dx) ∧
         Hierarchy.preorder Sample.forest x dx ∧
         ds = l1 ++ x :: dx ++ l3) ∧
    NoDup (organization.id <$> ds) ∧
    (∀ x, x ∈ ds ↔
          x ∈ organization_rows Sample.forest ∧
          Hierarchy.proper_ancestor Sample.forest Sample.org_A x) ∧
    (∀ i, i ∈ organization.id <$> ds ↔
          ∃ x, x ∈ organization_rows Sample.forest ∧
               organization.id x = i ∧
               Hierarchy.proper_ancestor Sample.forest Sample.org_A x) ∧
    organization.id Sample.org_A ∉ organization.id <$> ds.
Proof.
  assert (Hin : Sample.org_A ∈ organization_rows Sample.forest)
    by (simpl; left).
  split_and!;
    [exact sample_forest_primary_key|exact sample_forest_acyclic|exact Hin|].
  exact (descendants_preorder_exact Sample.forest Sample.org_A
           sample_forest_primary_key sample_forest_acyclic Hin).
Defined.

Example descendants_A :
  Organization.descendants Sample.forest 3 Sample.org_A
  = Done [Sample.org_B; Sample.org_C].
Proof. reflexivity. Qed.

Example descendant_ids_A :
  Organization.descendant_ids Sample.forest 3 Sample.org_A = Done [2; 3].
Proof. reflexivity. Qed.

Example descendant_tree_A :
  Organization.descendant_tree Sample.forest 3 Sample.org_A
  = Done [Organization.TreeNode 2 "B"
            [Organization.TreeNode 3 "C" [] 1] 0].
Proof. reflexivity. Qed.

(** ** Termination of the walks *)

Section tree_facts.
Variable db : Db.
Abbreviation rows := (organization_rows db).
Abbreviation parent := (Organization.parent db).
Abbreviation children := (Organization.children db).
Abbreviation descendants := (Organization.descendants db).
Abbreviation descendant_tree := (Organization.descendant_tree db).
Abbreviation nth_parent := (Hierarchy.nth_parent db).

Abbreviation node_of := (tree_node_of db).

Lemma for_each_descendant_tree fuel cs acc r :
  for_each cs acc
    (λ acc' c, sub ← descendant_tree fuel c; Done (acc' ++ [node_of c sub]))
  = Done r ↔
  ∃ subs, Forall2 (λ c sub, descendant_tree fuel c = Done sub) cs subs ∧
          r = acc ++ zip_with node_of cs subs.
Proof.
  revert acc r. induction cs as [|c cs IH]; intros acc r; simpl.
  - split.
    + intros [= <-]. exists []. split; [constructor|].
      by rewrite app_nil_r.
    + intros (subs & HF & ->). apply Forall2_nil_inv_l in HF as ->.
      by rewrite app_nil_r.
  - rewrite bind_Done. split.
    + intros (s' & (sub & Hsub & [= <-])%bind_Done & Hrest).
      apply IH in Hrest as (subs & HF & ->).
      exists (sub :: subs). split; [by constructor|].
      simpl. by rewrite <-app_assoc.
    + intros (subs & HF & ->).
      apply Forall2_cons_inv_l in HF as (sub & subs' & Hsub & HF & ->).
      exists (acc ++ [node_of c sub]). split; [by rewrite Hsub|].
      apply IH. exists subs'. split; [done|].
      simpl. by rewrite <-app_assoc.
Qed.

Lemma descendant_tree_S fuel o r :
  descendant_tree (S fuel) o = Done r ↔
  ∃ subs, Forall2 (λ c sub, descendant_tree fuel c = Done sub)
            (children o) subs ∧
          r = zip_with node_of (children o) subs.
Proof.
  change (descendant_tree (S fuel) o) with
    (for_each (children o) []
       (λ acc' c, sub ← descendant_tree fuel c;
                  Done (acc' ++ [node_of c sub]))).
  rewrite for_each_descendant_tree. by setoid_rewrite app_nil_l.
Qed.

Lemma descendant_tree_mono fuel fuel' o r :
  (fuel ≤ fuel')%nat → descendant_tree fuel o = Done r →
  descendant_tree fuel' o = Done r.
Proof.
  revert fuel' o r. induction fuel as [|fuel IH]; intros fuel' o r Hle;
    [done|].
  destruct fuel' as [|fuel']; [lia|].
  rewrite !descendant_tree_S. intros (subs & HF & ->). exists subs.
  split; [|done].
  eapply Forall2_impl; [exact HF|]. intros c dc. apply IH. lia.
Qed.

(** Both walks recurse through the same children, so one returns exactly
    when the other does. *)
Lemma descendant_tree_returns_iff fuel o :
  (∃ r, descendants fuel o = Done r) ↔ (∃ t, descendant_tree fuel o = Done t).
Proof.
  revert o. induction fuel as [|fuel IH]; intros o.
  - split; by intros [? ?].
  - setoid_rewrite descendants_S. setoid_rewrite descendant_tree_S. split.
    + intros (r & subs & HF & _).
      destruct (Forall2_choice (λ c sub, descendant_tree fuel c = Done sub)
                  (children o)) as [ts Hts]; [|eauto].
      intros c Hc. apply IH.
      apply list_elem_of_lookup in Hc as [i Hi].
      destruct (Forall2_lookup_l _ _ _ _ _ HF Hi) as (dc & _ & Hdc). eauto.
    + intros (t & subs & HF & _).
      destruct (Forall2_choice (λ c dc, descendants fuel c = Done dc)
                  (children o)) as [ds Hds]; [|eauto].
      intros c Hc. apply IH.
      apply list_elem_of_lookup in Hc as [i Hi].
      destruct (Forall2_lookup_l _ _ _ _ _ HF Hi) as (sub & _ & Hsub). eauto.
Qed.

Lemma nth_parent_in_rows o k x : nth_parent o (S k) = Some x → x ∈ rows.
Proof.
  rewrite nth_parent_snoc.
  destruct (nth_parent o k) as [y|]; simpl; [|done].
  by intros [? _]%parent_Some.
Qed.

Lemma cycle_child o :
  Hierarchy.on_cycle db o → ∃ c, c ∈ children o ∧ Hierarchy.on_cycle db c.
Proof.
  intros [k Hk]. pose proof Hk as Hk'. rewrite nth_parent_snoc in Hk'.
  destruct (nth_parent o k) as [c|] eqn:Hc; simpl in Hk'; [|done].
  assert (Hcr : c ∈ rows).
  { destruct k as [|k]; [|by eapply nth_parent_in_rows].
    injection Hc as <-. by apply parent_Some in Hk' as [? _]. }
  exists c. split; [by apply child_of_parent|].
  exists k. simpl. by rewrite Hk'.
Qed.

Lemma descendants_unbounded o :
  Hierarchy.on_cycle db o → ∀ fuel, descendants fuel o = OutOfFuel.
Proof.
  intros Hcyc fuel. revert o Hcyc.
  induction fuel as [|fuel IH]; intros o Hcyc; [done|].
  destruct (descendants (S fuel) o) as [r|] eqn:Hr; [exfalso|done].
  apply descendants_S in Hr as (subs & HF & _).
  destruct (cycle_child o Hcyc) as (c & Hc & Hcc).
  apply list_elem_of_lookup in Hc as [i Hi].
  destruct (Forall2_lookup_l _ _ _ _ _ HF Hi) as (dc & _ & Hdc).
  by rewrite (IH c Hcc) in Hdc.
Qed.

Lemma descendant_tree_unbounded o :
  Hierarchy.on_cycle db o → ∀ fuel, descendant_tree fuel o = OutOfFuel.
Proof.
  intros Hcyc fuel.
  destruct (descendant_tree fuel o) as [t|] eqn:Ht; [exfalso|done].
  destruct (proj2 (descendant_tree_returns_iff fuel o)) as [r Hr]; [eauto|].
  by rewrite (descendants_unbounded o Hcyc) in Hr.
Qed.
End tree_facts.

(** C7: on acyclic data the recursive walks [ancestors], [descendants],
    [descendant_tree], [organization_tree] and [organization_ids] return
    (from some amount of fuel on, always the same result); nothing in them
    bounds the depth or detects a cycle, so on an organization that lies on a
    cycle of parent links, and for an author of such an organization, every
    one of them exceeds any amount of fuel. *)
Theorem walks_terminate_unless_cyclic db :
  (∀ o, Hierarchy.reaches_root db o →
     ∃ n l, ∀ fuel, (n ≤ fuel)%nat →
       Organization.ancestors db fuel o = Done l) ∧
  (∀ a, (∀ org, Author.organization db a = Some org →
                Hierarchy.reaches_root db org) →
     ∃ n s ids, ∀ fuel, (n ≤ fuel)%nat →
       Author.organization_tree db fuel a = Done s ∧
       Author.organization_ids db fuel a = Done ids) ∧
  (Hierarchy.primary_key db → Hierarchy.acyclic db →
     ∃ n, ∀ o, o ∈ organization_rows db →
       ∃ ds t, ∀ fuel, (n ≤ fuel)%nat →
         Organization.descendants db fuel o = Done ds ∧
         Organization.descendant_tree db fuel o = Done t) ∧
  (∀ o, Hierarchy.on_cycle db o →
     ∀ fuel,
       Organization.ancestors db fuel o = OutOfFuel ∧
       Organization.descendants db fuel o = OutOfFuel ∧
       Organization.descendant_tree db fuel o = OutOfFuel) ∧
  (∀ a org, Author.organization db a = Some org →
     Hierarchy.on_cycle db org →
     ∀ fuel,
       Author.organization_tree db fuel a = OutOfFuel ∧
       Author.organization_ids db fuel a = OutOfFuel).
Proof.
  split_and!.
  - intros o [k Hk].
    destruct (ancestors_chain db o k Hk) as (l & Hrun & _).
    exists (S k), l. intros fuel Hfuel. apply Hrun. lia.
  - intros a Ha. unfold Author.organization_tree, Author.organization_ids.
    destruct (Author.organization db a) as [org|].
    + destruct (Ha org eq_refl) as [k Hk].
      destruct (ancestors_chain db org k Hk) as (l & Hrun & _).
      eexists (S k), _, _. intros fuel Hfuel.
      rewrite (Hrun fuel) by lia. simpl. done.
    + by exists 0%nat, (PyStr ""), [].
  - intros Hpk Hacyclic.
    destruct (descendants_terminates db Hpk Hacyclic) as [n Hn].
    exists n. intros o Ho. destruct (Hn o Ho) as [ds Hds].
    destruct (proj1 (descendant_tree_returns_iff db n o)) as [t Ht]; [eauto|].
    exists ds, t. intros fuel Hfuel. split.
    + by eapply descendants_mono.
    + by eapply descendant_tree_mono.
  - intros o Hcyc fuel. split_and!.
    + by apply ancestors_unbounded, on_cycle_no_root.
    + by apply descendants_unbounded.
    + by apply descendant_tree_unbounded.
  - intros a org Ha Hcyc fuel.
    unfold Author.organization_tree, Author.organization_ids. rewrite Ha.
    rewrite (ancestors_unbounded db org); [done|].
    by apply on_cycle_no_root.
Qed.

Lemma sample_cyclic_on_cycle : Hierarchy.on_cycle Sample.cyclic Sample.org_P.
Proof. exists 1%nat. reflexivity. Qed.

Lemma walks_terminate_unless_cyclic_witness :
  (∃ n l, ∀ fuel, (n ≤ fuel)%nat →
     Organization.ancestors Sample.forest fuel Sample.org_C = Done l) ∧
  (∃ n s ids, ∀ fuel, (n ≤ fuel)%nat →
     Author.organization_tree Sample.forest fuel Sample.author_X = Done s ∧
     Author.organization_ids Sample.forest fuel Sample.author_X = Done ids) ∧
  (∃ n, ∀ o, o ∈ organization_rows Sample.forest →
     ∃ ds t, ∀ fuel, (n ≤ fuel)%nat →
       Organization.descendants Sample.forest fuel o = Done ds ∧
       Organization.descendant_tree Sample.forest fuel o = Done t) ∧
  (∀ fuel,
     Organization.ancestors Sample.cyclic fuel Sample.org_P = OutOfFuel ∧
     Organization.descendants Sample.cyclic fuel Sample.org_P = OutOfFuel ∧
     Organization.descendant_tree Sample.cyclic fuel Sample.org_P
     = OutOfFuel) ∧
  (∀ fuel,
     Author.organization_tree Sample.cyclic fuel Sample.author_W
     = OutOfFuel ∧
     Author.organization_ids Sample.cyclic fuel Sample.author_W = OutOfFuel).
Proof.
  destruct (walks_terminate_unless_cyclic Sample.forest)
    as (Hanc & Hauth & Hdesc & _ & _).
  destruct (walks_terminate_unless_cyclic Sample.cyclic)
    as (_ & _ & _ & Hcyc & Hcyc_auth).
  split_and!.
  - apply Hanc. exists 2%nat. reflexivity.
  - apply Hauth. intros org [= <-]. exists 2%nat. reflexivity.
  - apply Hdesc; [exact sample_forest_primary_key|exact sample_forest_acyclic].
  - apply Hcyc. exact sample_cyclic_on_cycle.
  - apply (Hcyc_auth Sample.author_W Sample.org_P);
      [reflexivity|exact sample_cyclic_on_cycle].
Defined.

Example ancestors_P_out_of_fuel :
  Organization.ancestors Sample.cyclic 1000 Sample.org_P = OutOfFuel.
Proof. vm_compute. reflexivity. Qed.

(** ** Direct membership *)

Lemma length_filter_count {R : Type} (P : R → Prop) `{∀ r, Decision (P r)}
    (rows : list R) :
  length (filter P rows) = count_rows (λ r, bool_decide (P r)) rows.
Proof.
  induction rows as [|r rows IH]; [done|].
  rewrite filter_cons. simpl. case_decide.
  - rewrite bool_decide_true by done. simpl. by rewrite IH.
  - rewrite bool_decide_false by done. done.
Qed.

Lemma descendant_id_differs db fuel o ds d :
  Hierarchy.primary_key db → Hierarchy.acyclic db →
  o ∈ organization_rows db →
  Organization.descendants db fuel o = Done ds → d ∈ ds →
  organization.id d ≠ organization.id o.
Proof.
  intros Hpk Hacyclic Ho Hds Hd Heq.
  destruct (descendants_sound db Hpk fuel o ds d Ho Hds Hd) as [Hdr Hanc].
  assert (d = o) as -> by (by apply (id_inj_rows db Hpk)).
  by apply (no_cycle db Hacyclic o Ho).
Qed.

(** C4: [number_of_authors] is the number of author rows whose
    [organization_id] is exactly this organization's id; an author of another
    organization, in particular of a descendant, is not counted. *)
Theorem number_of_authors_direct_only db o :
  Organization.number_of_authors db o
  = count_rows (direct_member o) (author_rows db) ∧
  (∀ a, author.organization_id a ≠ Some (organization.id o) →
     Organization.number_of_authors (Session.add_author a db) o
     = Organization.number_of_authors db o) ∧
  (∀ a, author.organization_id a = Some (organization.id o) →
     Organization.number_of_authors (Session.add_author a db) o
     = S (Organization.number_of_authors db o)) ∧
  (∀ fuel ds d a,
     Hierarchy.primary_key db → Hierarchy.acyclic db →
     o ∈ organization_rows db →
     Organization.descendants db fuel o = Done ds → d ∈ ds →
     a ∈ Organization.authors db d →
     (a ∉ Organization.authors db o) ∧ direct_member o a = false).
Proof.
  split_and!.
  - apply length_filter_count.
  - intros a Ha. unfold Organization.number_of_authors, Organization.authors.
    simpl. rewrite filter_app, length_app, filter_cons, decide_False by done.
    simpl. lia.
  - intros a Ha. unfold Organization.number_of_authors, Organization.authors.
    simpl. rewrite filter_app, length_app, filter_cons, decide_True by done.
    simpl. lia.
  - intros fuel ds d a Hpk Hacyclic Ho Hds Hd [Ha _]%list_elem_of_filter.
    pose proof (descendant_id_differs db fuel o ds d Hpk Hacyclic Ho Hds Hd)
      as Hne.
    assert (author.organization_id a ≠ Some (organization.id o))
      by congruence.
    split.
    + by intros [? _]%list_elem_of_filter.
    + by apply bool_decide_eq_false.
Qed.

Lemma number_of_authors_direct_only_witness :
  Organization.number_of_authors Sample.forest Sample.org_A = 1%nat ∧
  Organization.number_of_authors
    (Session.add_author (Sample.mk_author 9 "V" (Some 2)) Sample.forest)
    Sample.org_A = 1%nat ∧
  Sample.author_X ∉ Organization.authors Sample.forest Sample.org_A.
Proof.
  destruct (number_of_authors_direct_only Sample.forest Sample.org_A)
    as (Hcount & Hother & _ & Hdesc).
  split_and!.
  - rewrite Hcount. reflexivity.
  - rewrite Hother; [rewrite Hcount; reflexivity|done].
  - apply (Hdesc 3%nat [Sample.org_B; Sample.org_C] Sample.org_C).
    + exact sample_forest_primary_key.
    + exact sample_forest_acyclic.
    + simpl. left.
    + reflexivity.
    + right. left.
    + simpl. left.
Defined.

(** ** The coauthor graph *)

Section coauthor_facts.
Variable db : Db.

Lemma elem_of_coauthors z w :
  w ∈ Author.coauthors db z ↔
  w ∈ author_rows db ∧
  ∃ e, e ∈ coauthor_rows db ∧
       coauthor.author_id e = Some (author.id z) ∧
       coauthor.coauthor_id e = Some (author.id w).
Proof.
  unfold Author.coauthors. rewrite list_elem_of_bind. split.
  - intros (e & [Hw Hin]%list_elem_of_filter & [He Hein]%list_elem_of_filter).
    eauto 6.
  - intros (Hin & e & Hein & He & Hw). exists e.
    split; by apply list_elem_of_filter.
Qed.

Lemma coauthors_insert_other x y z :
  author.id x ≠ author.id z →
  Author.coauthors (Session.insert_coauthor x y db) z
  = Author.coauthors db z.
Proof.
  intros Hne. unfold Author.coauthors. simpl.
  rewrite filter_app, filter_cons, decide_False; [|simpl; congruence].
  by rewrite filter_nil, app_nil_r.
Qed.

Lemma coauthors_insert_source x y :
  Author.coauthors (Session.insert_coauthor x y db) x
  = Author.coauthors db x
    ++ filter (λ w, Some (author.id y) = Some (author.id w)) (author_rows db).
Proof.
  unfold Author.coauthors. simpl.
  rewrite filter_app, filter_cons, decide_True by done.
  rewrite filter_nil, bind_app. simpl. by rewrite app_nil_r.
Qed.
End coauthor_facts.

(** C6: for authors [x] and [y], inserting the one edge from [x] to [y]
    puts [y] among the coauthors of [x]; the coauthors of [y] stay as they
    were (empty if they were empty, and without [x]) unless the edge is its
    own reverse, that is, unless [y] is its source; the coauthors of an
    author are exactly the stored authors named by the edges whose source
    column is that author, so the relation is not symmetric by itself. *)
Theorem coauthor_edge_is_directed db x y :
  x ∈ author_rows db → y ∈ author_rows db →
  y ∈ Author.coauthors (Session.insert_coauthor x y db) x ∧
  (author.id x ≠ author.id y →
   Author.coauthors (Session.insert_coauthor x y db) y
   = Author.coauthors db y ∧
   (Author.coauthors db y = [] →
    Author.coauthors (Session.insert_coauthor x y db) y = [] ∧
    x ∉ Author.coauthors (Session.insert_coauthor x y db) y)) ∧
  (∀ w, w ∈ Author.coauthors (Session.insert_coauthor x y db) y →
        w ∈ Author.coauthors db y ∨ author.id x = author.id y) ∧
  (∀ d z w,
     w ∈ Author.coauthors d z ↔
     w ∈ author_rows d ∧
     ∃ e, e ∈ coauthor_rows d ∧
          coauthor.author_id e = Some (author.id z) ∧
          coauthor.coauthor_id e = Some (author.id w)).
Proof.
  intros Hx Hy. split_and!.
  - rewrite coauthors_insert_source. apply elem_of_app. right.
    by apply list_elem_of_filter.
  - intros Hne. split; [by apply coauthors_insert_other|].
    intros Hempty. rewrite coauthors_insert_other, Hempty by done.
    split; [done|apply not_elem_of_nil].
  - intros w Hw.
    destruct (decide (author.id x = author.id y)) as [?|Hne]; [by right|].
    left. by rewrite coauthors_insert_other in Hw.
  - apply elem_of_coauthors.
Qed.

Lemma coauthor_edge_is_directed_witness :
  Sample.author_Y ∈
    Author.coauthors
      (Session.insert_coauthor Sample.author_X Sample.author_Y Sample.forest)
      Sample.author_X ∧
  Author.coauthors
    (Session.insert_coauthor Sample.author_X Sample.author_Y Sample.forest)
    Sample.author_Y = [] ∧
  Sample.author_X ∉
    Author.coauthors
      (Session.insert_coauthor Sample.author_X Sample.author_Y Sample.forest)
      Sample.author_Y.
Proof.
  destruct (coauthor_edge_is_directed Sample.forest Sample.author_X
              Sample.author_Y) as (Hin & Hdistinct & _).
  - simpl. left.
  - simpl. right. left.
  - destruct Hdistinct as [_ Hempty]; [simpl; lia|].
    destruct Hempty as [Hnil Hnot]; [reflexivity|].
    split_and!; [exact Hin|exact Hnil|exact Hnot].
Defined.

(** The edge from an author to itself is its own reverse. *)
Example coauthors_self_edge :
  Author.coauthors
    (Session.insert_coauthor Sample.author_X Sample.author_X Sample.forest)
    Sample.author_X = [Sample.author_X] ∧
  Author.coauthors Sample.forest Sample.author_X = [].
Proof. split; reflexivity. Qed.

(** ** Suggestions and their benchmark *)

Lemma suggestions_no_required_reference r :
  forallb (λ cb, nullable cb.1 || cb.2) (Suggestions.bound r) = true.
Proof. reflexivity. Qed.

(** C8 on the code: [benchmark_id] is declared without [nullable=False], so
    the column accepts NULL like [author_id] does, and a suggestion that
    names no benchmark is stored. *)
Theorem suggestion_without_benchmark_is_stored :
  nullable_arg Suggestions.benchmark_id = None ∧
  nullable Suggestions.benchmark_id = true ∧
  nullable Suggestions.author_id = true ∧
  nullable Benchmark.name = false ∧
  suggestions.benchmark_id Sample.suggestion_without_benchmark = None ∧
  ∃ db',
    Session.add_suggestion Sample.suggestion_without_benchmark Sample.forest
    = Some db' ∧
    suggestions_rows db' = [Sample.suggestion_without_benchmark].
Proof.
  split_and!; try reflexivity.
  eexists. split; reflexivity.
Qed.

(** ** The per-year series *)

#[local] Instance key_le_total {R : Type} (key : R → Z) : Total (key_le key).
Proof. intros r1 r2. unfold key_le. lia. Qed.

#[local] Instance key_le_trans {R : Type} (key : R → Z) :
  Transitive (key_le key).
Proof. intros r1 r2 r3. unfold key_le. lia. Qed.

Lemma load_collection_Permutation {R : Type} (rel : relationship R) rows :
  load_collection rel rows ≡ₚ rows.
Proof.
  unfold load_collection. destruct (order_by rel) as [key|]; [|done].
  apply merge_sort_Permutation.
Qed.

(** C9: an author's [citations_per_year], when read, is in ascending year
    order and holds exactly the author's rows; a publication's is read as
    stored, with no ordering declared, and can be out of year order. *)
Theorem author_series_ordered_publication_series_not :
  (∀ db a,
     StronglySorted (key_le author_citations_per_year.year)
       (Author.citations_per_year db a) ∧
     Author.citations_per_year db a ≡ₚ
       filter (λ r, author_citations_per_year.author_id r = author.id a)
              (author_citations_per_year_rows db)) ∧
  order_by Publication.citations_per_year_relationship = None ∧
  (∀ db p,
     Publication.citations_per_year db p
     = filter (λ r, publication_citations_per_year.publication_id r
                    = publication.id p)
              (publication_citations_per_year_rows db)) ∧
  (∃ db p,
     ¬ Sorted (key_le publication_citations_per_year.year)
         (Publication.citations_per_year db p)).
Proof.
  split_and!.
  - intros db a. split.
    + unfold Author.citations_per_year, load_collection. simpl.
      apply StronglySorted_merge_sort; apply _.
    + apply load_collection_Permutation.
  - reflexivity.
  - reflexivity.
  - exists Sample.forest, Sample.paper_1. intros Hs.
    apply Sorted_inv in Hs as [_ Hhd].
    apply HdRel_inv in Hhd. unfold key_le in Hhd. simpl in Hhd. lia.
Qed.

Example author_series_X :
  author_citations_per_year.year
    <$> Author.citations_per_year Sample.forest Sample.author_X
  = [2013; 2014; 2015].
Proof. reflexivity. Qed.

Example publication_series_1 :
  publication_citations_per_year.year
    <$> Publication.citations_per_year Sample.forest Sample.paper_1
  = [2016; 2014].
Proof. reflexivity. Qed.

(** Both series are declared with a cascade that includes [delete]. *)
Example citations_per_year_cascades :
  cascade_delete Author.citations_per_year_relationship = true ∧
  cascade_delete Publication.citations_per_year_relationship = true.
Proof. split; reflexivity. Qed.

(* ================================================================== *)
(** * Further properties of the walks *)

Section chain_facts.
Variable db : Db.
Abbreviation rows := (organization_rows db).
Abbreviation parent := (Organization.parent db).
Abbreviation ancestors := (Organization.ancestors db).
Abbreviation nth_parent := (Hierarchy.nth_parent db).

Lemma ancestors_lookup fuel o l i :
  ancestors fuel o = Done l → l !! i = nth_parent o (S i).
Proof.
  revert o l i. induction fuel as [|fuel IH]; intros o l i; [done|].
  simpl. destruct (parent o) as [p|] eqn:Hp.
  - intros (rest & Hrest & [= <-])%bind_Done.
    destruct i as [|i]; simpl; [done|]. by apply IH.
  - by intros [= <-].
Qed.

Lemma ancestors_returns_root fuel o l :
  ancestors fuel o = Done l → nth_parent o (S (length l)) = None.
Proof.
  intros Hl. rewrite <-(ancestors_lookup fuel o l (length l) Hl).
  by apply lookup_ge_None_2.
Qed.

Lemma elem_of_ancestors fuel o l x :
  ancestors fuel o = Done l → x ∈ l ↔ ∃ i, nth_parent o (S i) = Some x.
Proof.
  intros Hl. rewrite list_elem_of_lookup. split.
  - intros [i Hi]. exists i. by rewrite <-(ancestors_lookup fuel o l i Hl).
  - intros [i Hi]. exists i. by rewrite (ancestors_lookup fuel o l i Hl).
Qed.

Lemma reaches_root_above o x i :
  Hierarchy.reaches_root db o → nth_parent o i = Some x →
  Hierarchy.reaches_root db x.
Proof.
  intros [k Hk] Hx. exists k.
  pose proof (nth_parent_None_le db o (S k) (i + S k) ltac:(lia) Hk) as H.
  by rewrite nth_parent_add, Hx in H.
Qed.

Lemma ancestors_NoDup fuel o l :
  ancestors fuel o = Done l → NoDup l.
Proof.
  intros Hl. apply NoDup_alt.
  assert (Hroot : Hierarchy.reaches_root db o)
    by (eexists; by eapply ancestors_returns_root).
  assert (Hlt : ∀ i j x, (i < j)%nat →
            l !! i = Some x → l !! j = Some x → False).
  { intros i j x Hij Hi Hj.
    rewrite (ancestors_lookup fuel o l i Hl) in Hi.
    rewrite (ancestors_lookup fuel o l j Hl) in Hj.
    apply (on_cycle_no_root db x).
    - exists (j - i - 1)%nat.
      replace (S j) with (S i + S (j - i - 1))%nat in Hj by lia.
      by rewrite nth_parent_add, Hi in Hj.
    - by eapply reaches_root_above. }
  intros i j x Hi Hj.
  destruct (Nat.lt_trichotomy i j) as [?|[?|?]]; [|done|];
    exfalso; eauto.
Qed.

Lemma ancestors_through fuel o lo x k :
  nth_parent x (S k) = Some o → ancestors fuel o = Done lo →
  ∃ path, length path = k ∧
          ancestors (S k + fuel) x = Done (path ++ o :: lo).
Proof.
  revert x. induction k as [|k IH]; intros x Hk Hlo.
  - simpl in Hk. destruct (parent x) as [p|] eqn:Hp; [|done].
    injection Hk as ->. exists []. split; [done|]. simpl.
    by rewrite Hp, Hlo.
  - change (nth_parent x (S (S k))) with (p ← parent x; nth_parent p (S k))
      in Hk.
    destruct (parent x) as [p|] eqn:Hp; [|done]. simpl in Hk.
    destruct (IH p Hk Hlo) as (path & Hlen & Hrun).
    exists (p :: path). split; [simpl; lia|].
    change (ancestors (S (S k) + fuel) x) with
      (match parent x with
       | None => Done []
       | Some q => rest ← ancestors (S k + fuel) q; Done ([q] ++ rest)
       end).
    by rewrite Hp, Hrun.
Qed.
End chain_facts.

Lemma string_app_assoc (s1 s2 s3 : string) :
  (s1 +:+ s2) +:+ s3 = s1 +:+ (s2 +:+ s3).
Proof.
  induction s1 as [|c s1 IH]; [done|].
  change (String.String c ((s1 +:+ s2) +:+ s3)
          = String.String c (s1 +:+ (s2 +:+ s3))).
  by rewrite IH.
Qed.

Lemma str_join_snoc sep (parts : list string) (x : string) :
  parts ≠ [] →
  str_join sep (parts ++ [x]) = str_join sep parts +:+ sep +:+ x.
Proof.
  unfold str_join. induction parts as [|p parts IH]; [done|]. intros _.
  destruct parts as [|q parts]; [done|].
  change (String.concat sep ((p :: q :: parts) ++ [x])) with
    (p +:+ sep +:+ String.concat sep ((q :: parts) ++ [x])).
  rewrite IH by done.
  change (String.concat sep (p :: q :: parts)) with
    (p +:+ sep +:+ String.concat sep (q :: parts)).
  by rewrite !string_app_assoc.
Qed.

(** X1: [organization_ids] of an author whose organization ends the chain
    [root -> ... -> organization] is the ids of that chain, root first and
    ending with the organization's own id; it is the empty list for an
    author without organization. *)
Theorem organization_ids_root_first db a :
  (Author.organization db a = None →
   ∀ fuel, Author.organization_ids db fuel a = Done []) ∧
  (∀ org c,
     Author.organization db a = Some org →
     Hierarchy.root_path db c org →
     ∀ fuel, (length c ≤ fuel)%nat →
       Author.organization_ids db fuel a = Done (organization.id <$> c) ∧
       last (organization.id <$> c) = Some (organization.id org)).
Proof.
  split.
  - intros Hnone fuel. unfold Author.organization_ids. by rewrite Hnone.
  - intros org c Horg Hpath fuel Hfuel.
    destruct (ancestors_root_path db c org fuel Hpath Hfuel) as [Hrun Hrev].
    split.
    + unfold Author.organization_ids. rewrite Horg, Hrun. simpl.
      rewrite <-Hrev. by rewrite reverse_involutive.
    + destruct c as [|r rest]; [done|]. destruct Hpath as (_ & _ & Hlast).
      by rewrite fmap_last, Hlast.
Qed.

Lemma organization_ids_root_first_witness :
  Author.organization_ids Sample.forest 0 Sample.author_Z = Done [] ∧
  Author.organization_ids Sample.forest 3 Sample.author_X = Done [1; 2; 3].
Proof.
  destruct (organization_ids_root_first Sample.forest Sample.author_Z)
    as [Hnone _].
  destruct (organization_ids_root_first Sample.forest Sample.author_X)
    as [_ Hsome].
  split.
  - apply Hnone. reflexivity.
  - apply (Hsome Sample.org_C [Sample.org_A; Sample.org_B; Sample.org_C]).
    + reflexivity.
    + repeat split.
    + simpl. lia.
Defined.

(** X2: the author's renderings are those of the organization extended by
    the organization itself: [organization_ids] is the reversed
    [ancestor_ids] followed by the organization's id, and
    [organization_tree] is [ancestor_tree] followed by [" :: "] and the
    organization's name, or the name alone when [ancestor_tree] is [None]. *)
Theorem organization_tree_extends_ancestor_tree db a org fuel l :
  Author.organization db a = Some org →
  Organization.ancestors db fuel org = Done l →
  Organization.ancestor_ids db fuel org = Done (organization.id <$> l) ∧
  Author.organization_ids db fuel a
  = Done (reverse (organization.id <$> l) ++ [organization.id org]) ∧
  ∃ t, Organization.ancestor_tree db fuel org = Done t ∧
       Author.organization_tree db fuel a
       = Done (PyStr match t with
                     | PyNone => organization.name org
                     | PyStr s => s +:+ " :: " +:+ organization.name org
                     end).
Proof.
  intros Horg Hl. split_and!.
  - unfold Organization.ancestor_ids. by rewrite Hl.
  - unfold Author.organization_ids. rewrite Horg, Hl. simpl.
    by rewrite reverse_cons, fmap_app, fmap_reverse.
  - unfold Organization.ancestor_tree, Author.organization_tree.
    rewrite Horg, Hl. simpl. destruct l as [|p l].
    + by exists PyNone.
    + eexists. split; [done|]. do 2 f_equal.
      change (org :: p :: l) with ([org] ++ p :: l).
      rewrite reverse_app, fmap_app. simpl.
      rewrite str_join_snoc; [done|].
      rewrite reverse_cons, fmap_app. by destruct (_ <$> reverse l).
Qed.

Lemma organization_tree_extends_ancestor_tree_witness :
  Author.organization_ids Sample.forest 3 Sample.author_X
  = Done (reverse [2; 1] ++ [3]) ∧
  Author.organization_tree Sample.forest 3 Sample.author_X
  = Done (PyStr ("A :: B" +:+ " :: " +:+ "C")) ∧
  Author.organization_tree Sample.forest 3 Sample.author_Y
  = Done (PyStr "A").
Proof.
  destruct (organization_tree_extends_ancestor_tree Sample.forest
              Sample.author_X Sample.org_C 3 [Sample.org_B; Sample.org_A]
              eq_refl eq_refl) as (_ & Hids & t & Ht & Htree).
  destruct (organization_tree_extends_ancestor_tree Sample.forest
              Sample.author_Y Sample.org_A 3 [] eq_refl eq_refl)
    as (_ & _ & t' & Ht' & Htree').
  injection Ht as <-. injection Ht' as <-.
  split_and!; [exact Hids|exact Htree|exact Htree'].
Defined.

(** X3: whenever [ancestor_ids] returns, on a table with unique ids, the
    list has no duplicates and does not hold the organization's own id. *)
Theorem ancestor_ids_distinct db o fuel ids :
  Hierarchy.primary_key db → o ∈ organization_rows db →
  Organization.ancestor_ids db fuel o = Done ids →
  NoDup ids ∧ organization.id o ∉ ids.
Proof.
  intros Hpk Ho. unfold Organization.ancestor_ids.
  intros (l & Hl & [= <-])%bind_Done.
  assert (Hrows : ∀ x, x ∈ l → x ∈ organization_rows db).
  { intros x [i Hi]%(elem_of_ancestors db fuel o l x Hl).
    by eapply nth_parent_in_rows. }
  split.
  - apply NoDup_fmap_2_strong; [|by eapply ancestors_NoDup].
    intros x y Hx Hy. apply (id_inj_rows db Hpk); auto.
  - intros (x & Heq & Hx)%list_elem_of_fmap.
    assert (x = o) as -> by (apply (id_inj_rows db Hpk); auto).
    apply (elem_of_ancestors db fuel o l o Hl) in Hx as [i Hi].
    apply (on_cycle_no_root db o); [by exists i|].
    eexists. by eapply ancestors_returns_root.
Qed.

Lemma ancestor_ids_distinct_witness :
  NoDup [2; 1] ∧ organization.id Sample.org_C ∉ [2; 1].
Proof.
  apply (ancestor_ids_distinct Sample.forest Sample.org_C 3 [2; 1]).
  - exact sample_forest_primary_key.
  - simpl. do 2 right. left.
  - reflexivity.
Defined.

(** X4: on a table with unique ids the two walks are inverse to each other:
    whenever both return, a stored organization [x] is among the
    descendants of [o] exactly when [o] is among the ancestors of [x]; and
    in a forest both do return, from some amount of fuel on. *)
Theorem descendants_ancestors_inverse db o x :
  Hierarchy.primary_key db →
  o ∈ organization_rows db → x ∈ organization_rows db →
  (∀ fuel fuel' ds l,
     Organization.descendants db fuel o = Done ds →
     Organization.ancestors db fuel' x = Done l →
     x ∈ ds ↔ o ∈ l) ∧
  (Hierarchy.acyclic db →
   ∃ n ds l,
     (∀ fuel, (n ≤ fuel)%nat →
        Organization.descendants db fuel o = Done ds ∧
        Organization.ancestors db fuel x = Done l) ∧
     (x ∈ ds ↔ o ∈ l)).
Proof.
  intros Hpk Ho Hx.
  assert (Hinv : ∀ fuel fuel' ds l,
            Organization.descendants db fuel o = Done ds →
            Organization.ancestors db fuel' x = Done l →
            x ∈ ds ↔ o ∈ l).
  { intros fuel fuel' ds l Hds Hl.
    rewrite (elem_of_ancestors db fuel' x l o Hl). split.
    - intros Hin. by apply (descendants_sound db Hpk fuel o ds x Ho Hds).
    - intros Hanc. by apply (descendants_complete db fuel o ds x). }
  split; [exact Hinv|]. intros Hacyclic.
  destruct (descendants_terminates db Hpk Hacyclic) as [n Hn].
  destruct (Hn o Ho) as [ds Hds].
  destruct (Hacyclic x Hx) as [k Hk].
  destruct (ancestors_chain db x k Hk) as (l & Hrun & _).
  exists (n `max` S k)%nat, ds, l. split.
  - intros fuel Hfuel. split.
    + eapply descendants_mono; [|exact Hds]. lia.
    + apply Hrun. lia.
  - apply (Hinv n (S k)); [done|]. apply Hrun. lia.
Qed.

Lemma descendants_ancestors_inverse_witness :
  (Sample.org_C ∈ [Sample.org_B; Sample.org_C] ↔
   Sample.org_A ∈ [Sample.org_B; Sample.org_A]) ∧
  ∃ n ds l,
    (∀ fuel, (n ≤ fuel)%nat →
       Organization.descendants Sample.forest fuel Sample.org_A = Done ds ∧
       Organization.ancestors Sample.forest fuel Sample.org_C = Done l) ∧
    (Sample.org_C ∈ ds ↔ Sample.org_A ∈ l).
Proof.
  destruct (descendants_ancestors_inverse Sample.forest Sample.org_A
              Sample.org_C) as [Hinv Htotal].
  - exact sample_forest_primary_key.
  - simpl. left.
  - simpl. do 2 right. left.
  - split.
    + apply (Hinv 3%nat 3%nat); reflexivity.
    + apply Htotal. exact sample_forest_acyclic.
Defined.

(** X5: the ancestor chain of every descendant of [o] runs through [o]:
    it is some path, then [o], then the ancestors of [o]. *)
Theorem descendant_ancestors_pass_through db o x fuel ds lo :
  Hierarchy.primary_key db → o ∈ organization_rows db →
  Organization.descendants db fuel o = Done ds → x ∈ ds →
  Organization.ancestors db fuel o = Done lo →
  ∃ n path, ∀ fuel', (n ≤ fuel')%nat →
    Organization.ancestors db fuel' x = Done (path ++ o :: lo).
Proof.
  intros Hpk Ho Hds Hx Hlo.
  destruct (descendants_sound db Hpk fuel o ds x Ho Hds Hx) as [_ [k Hk]].
  destruct (ancestors_through db fuel o lo x k Hk Hlo) as (path & _ & Hrun).
  exists (S k + fuel)%nat, path. intros fuel' Hfuel'.
  by eapply ancestors_mono.
Qed.

Lemma descendant_ancestors_pass_through_witness :
  ∃ n path, ∀ fuel', (n ≤ fuel')%nat →
    Organization.ancestors Sample.forest fuel' Sample.org_C
    = Done (path ++ Sample.org_B :: [Sample.org_A]).
Proof.
  apply (descendant_ancestors_pass_through Sample.forest Sample.org_B
           Sample.org_C 3 [Sample.org_C]).
  - exact sample_forest_primary_key.
  - simpl. right. left.
  - reflexivity.
  - left.
  - reflexivity.
Defined.

(** X6: subtrees do not overlap unless one lies inside the other: when an
    organization is among the descendants of both [o1] and [o2], then
    [o1] and [o2] are the same organization or one is a descendant of the
    other. *)
Theorem overlapping_descendants_nest db o1 o2 x fuel ds1 ds2 :
  Hierarchy.primary_key db →
  o1 ∈ organization_rows db → o2 ∈ organization_rows db →
  Organization.descendants db fuel o1 = Done ds1 →
  Organization.descendants db fuel o2 = Done ds2 →
  x ∈ ds1 → x ∈ ds2 →
  o1 = o2 ∨ o1 ∈ ds2 ∨ o2 ∈ ds1.
Proof.
  intros Hpk Ho1 Ho2 Hds1 Hds2 Hx1 Hx2.
  destruct (descendants_sound db Hpk fuel o1 ds1 x Ho1 Hds1 Hx1)
    as [_ [k1 Hk1]].
  destruct (descendants_sound db Hpk fuel o2 ds2 x Ho2 Hds2 Hx2)
    as [_ [k2 Hk2]].
  destruct (Nat.lt_trichotomy k1 k2) as [Hlt|[->|Hlt]].
  - right. left. apply (descendants_complete db fuel o2 ds2 o1 Hds2 Ho1).
    exists (k2 - k1 - 1)%nat.
    replace (S k2) with (S k1 + S (k2 - k1 - 1))%nat in Hk2 by lia.
    by rewrite nth_parent_add, Hk1 in Hk2.
  - left. congruence.
  - right. right. apply (descendants_complete db fuel o1 ds1 o2 Hds1 Ho2).
    exists (k1 - k2 - 1)%nat.
    replace (S k1) with (S k2 + S (k1 - k2 - 1))%nat in Hk1 by lia.
    by rewrite nth_parent_add, Hk2 in Hk1.
Qed.

Lemma overlapping_descendants_nest_witness :
  Sample.org_A = Sample.org_B ∨
  Sample.org_A ∈ [Sample.org_C] ∨
  Sample.org_B ∈ [Sample.org_B; Sample.org_C].
Proof.
  apply (overlapping_descendants_nest Sample.forest Sample.org_A
           Sample.org_B Sample.org_C 3).
  - exact sample_forest_primary_key.
  - simpl. left.
  - simpl. right. left.
  - reflexivity.
  - reflexivity.
  - right. left.
  - left.
Defined.

(** ** Children, descendants and the descendant tree *)

Lemma sum_list_app (l k : list nat) :
  sum_list (l ++ k) = (sum_list l + sum_list k)%nat.
Proof. induction l as [|n l IH]; simpl; [done|]. rewrite IH. lia. Qed.

Lemma blocks_sublist {A : Type} (P : A → list A → Prop) cs subs :
  Forall2 P cs subs → cs `sublist_of` blocks cs subs.
Proof.
  unfold blocks. induction 1 as [|c dc cs subs _ _ IH]; simpl.
  - constructor.
  - apply sublist_skip. by apply sublist_inserts_l.
Qed.

(** X7: whenever [descendant_ids] returns, the ids of the children are a
    subsequence of it, it starts with the first child, and it is empty
    exactly when there are no children; in a forest with unique ids it does
    return, from some amount of fuel on. *)
Theorem children_ids_within_descendant_ids db o :
  (∀ fuel ids,
     Organization.descendant_ids db fuel o = Done ids →
     Organization.children_ids db o `sublist_of` ids ∧
     head ids = head (Organization.children_ids db o) ∧
     (ids = [] ↔ Organization.children_ids db o = [])) ∧
  (Hierarchy.primary_key db → Hierarchy.acyclic db →
   o ∈ organization_rows db →
   ∃ n ids,
     (∀ fuel, (n ≤ fuel)%nat →
        Organization.descendant_ids db fuel o = Done ids) ∧
     Organization.children_ids db o `sublist_of` ids ∧
     head ids = head (Organization.children_ids db o) ∧
     (ids = [] ↔ Organization.children_ids db o = [])).
Proof.
  assert (Hret : ∀ fuel ids,
            Organization.descendant_ids db fuel o = Done ids →
            Organization.children_ids db o `sublist_of` ids ∧
            head ids = head (Organization.children_ids db o) ∧
            (ids = [] ↔ Organization.children_ids db o = [])).
  { unfold Organization.descendant_ids, Organization.children_ids.
    intros fuel ids (ds & Hds & [= <-])%bind_Done.
    destruct fuel as [|fuel]; [done|].
    apply descendants_S in Hds as (subs & HF & ->).
    split_and!.
    - apply fmap_sublist. by eapply blocks_sublist.
    - destruct HF; done.
    - destruct HF; done. }
  split; [exact Hret|]. intros Hpk Hacyclic Ho.
  destruct (descendants_terminates db Hpk Hacyclic) as [n Hn].
  destruct (Hn o Ho) as [ds Hds].
  assert (Hrun : ∀ fuel, (n ≤ fuel)%nat →
            Organization.descendant_ids db fuel o
            = Done (organization.id <$> ds)).
  { intros fuel Hfuel. unfold Organization.descendant_ids.
    by rewrite (descendants_mono db n fuel o ds Hfuel Hds). }
  exists n, (organization.id <$> ds). split; [exact Hrun|].
  apply (Hret n). by apply Hrun.
Qed.

Lemma children_ids_within_descendant_ids_witness :
  (Organization.children_ids Sample.forest Sample.org_A `sublist_of` [2; 3] ∧
   head [2; 3] = head (Organization.children_ids Sample.forest Sample.org_A) ∧
   ([2; 3] = [] ↔
    Organization.children_ids Sample.forest Sample.org_A = [])) ∧
  ∃ n ids,
    (∀ fuel, (n ≤ fuel)%nat →
       Organization.descendant_ids Sample.forest fuel Sample.org_A
       = Done ids) ∧
    Organization.children_ids Sample.forest Sample.org_A `sublist_of` ids ∧
    head ids = head (Organization.children_ids Sample.forest Sample.org_A) ∧
    (ids = [] ↔ Organization.children_ids Sample.forest Sample.org_A = []).
Proof.
  destruct (children_ids_within_descendant_ids Sample.forest Sample.org_A)
    as [Hret Htotal].
  split.
  - apply (Hret 3%nat). reflexivity.
  - apply Htotal.
    + exact sample_forest_primary_key.
    + exact sample_forest_acyclic.
    + simpl. left.
Defined.

Section tree_reading.
Variable db : Db.
Abbreviation children := (Organization.children db).
Abbreviation descendants := (Organization.descendants db).
Abbreviation descendant_tree := (Organization.descendant_tree db).

Lemma tree_ids_node i n ch k :
  Tree.ids (Organization.TreeNode i n ch k) = i :: Tree.forest_ids ch.
Proof.
  simpl. f_equal. unfold Tree.forest_ids.
  induction ch as [|t ch IH]; [done|]. simpl. by rewrite IH.
Qed.

Lemma tree_total_node i n ch k :
  Tree.total_authors (Organization.TreeNode i n ch k)
  = (k + Tree.forest_total_authors ch)%nat.
Proof.
  simpl. f_equal. unfold Tree.forest_total_authors.
  induction ch as [|t ch IH]; [done|]. simpl. by rewrite IH.
Qed.

Lemma descendant_tree_reads fuel o ds t :
  descendants fuel o = Done ds → descendant_tree fuel o = Done t →
  Tree.forest_ids t = organization.id <$> ds ∧
  Tree.forest_total_authors t
  = sum_list (Organization.number_of_authors db <$> ds).
Proof.
  revert o ds t. induction fuel as [|fuel IH]; intros o ds t; [done|].
  intros (subs & HF & ->)%descendants_S (ts & HT & ->)%descendant_tree_S.
  revert ts HT. unfold blocks, Tree.forest_ids, Tree.forest_total_authors.
  induction HF as [|c dc cs subs Hc _ IHF]; intros ts HT.
  - by apply Forall2_nil_inv_l in HT as ->.
  - apply Forall2_cons_inv_l in HT as (tc & ts' & Htc & HT & ->).
    destruct (IH c dc tc Hc Htc) as [Hids Htotal].
    destruct (IHF ts' HT) as [Hids' Htotal'].
    change (zip_with (tree_node_of db) (c :: cs) (tc :: ts')) with
      (tree_node_of db c tc :: zip_with (tree_node_of db) cs ts').
    change (zip_with cons (c :: cs) (dc :: subs)) with
      ((c :: dc) :: zip_with cons cs subs).
    rewrite !fmap_cons. unfold tree_node_of at 1 3.
    rewrite tree_ids_node, tree_total_node, Hids, Htotal.
    change (concat ((c :: dc) :: zip_with cons cs subs)) with
      (c :: dc ++ concat (zip_with cons cs subs)).
    split.
    + change (concat (?l :: ?ls)) with (l ++ concat ls).
      rewrite Hids', fmap_cons, fmap_app. done.
    + rewrite fmap_cons, fmap_app.
      change (sum_list (?n :: ?ns)) with (n + sum_list ns)%nat.
      rewrite sum_list_app, Htotal'. lia.
Qed.

Lemma descendant_tree_top fuel o t :
  descendant_tree fuel o = Done t →
  Forall2 (λ c node, ∃ sub, node = tree_node_of db c sub) (children o) t.
Proof.
  destruct fuel as [|fuel]; [done|].
  intros (ts & HT & ->)%descendant_tree_S.
  induction HT as [|c tc cs ts _ _ IH]; simpl; constructor; eauto.
Qed.
End tree_reading.

(** X8: [descendant_tree] and [descendant_ids] describe the same walk: read
    dictionary first, then its ['children'], the ids in the tree are
    [descendant_ids]; the tree has one dictionary per child, in child
    order, carrying that child's id, name and [number_of_authors]. *)
Theorem descendant_tree_flattens_to_descendant_ids db o fuel t :
  Organization.descendant_tree db fuel o = Done t →
  Organization.descendant_ids db fuel o = Done (Tree.forest_ids t) ∧
  Forall2 (λ c node,
             ∃ sub, node = Organization.TreeNode
                             (organization.id c) (organization.name c) sub
                             (Organization.number_of_authors db c))
          (Organization.children db o) t.
Proof.
  intros Ht. split.
  - destruct (proj2 (descendant_tree_returns_iff db fuel o)) as [ds Hds];
      [eauto|].
    unfold Organization.descendant_ids. rewrite Hds. simpl.
    by rewrite (proj1 (descendant_tree_reads db fuel o ds t Hds Ht)).
  - by eapply descendant_tree_top.
Qed.

Lemma descendant_tree_flattens_to_descendant_ids_witness :
  Organization.descendant_ids Sample.forest 3 Sample.org_A
  = Done (Tree.forest_ids
            [Organization.TreeNode 2 "B"
               [Organization.TreeNode 3 "C" [] 1] 0]).
Proof.
  apply (descendant_tree_flattens_to_descendant_ids Sample.forest
           Sample.org_A 3).
  reflexivity.
Defined.

(** ** Author counts over a subtree *)

Lemma length_filter_split {A : Type} (P Q R : A → Prop)
    `{∀ x, Decision (P x)} `{∀ x, Decision (Q x)} `{∀ x, Decision (R x)}
    (l : list A) :
  (∀ x, R x ↔ P x ∨ Q x) → (∀ x, P x → Q x → False) →
  length (filter R l) = (length (filter P l) + length (filter Q l))%nat.
Proof.
  intros HR Hdisj. induction l as [|x l IH]; [done|].
  rewrite !filter_cons.
  destruct (decide (P x)) as [HP|HP], (decide (Q x)) as [HQ|HQ];
    [by destruct (Hdisj x)|..].
  - rewrite decide_True by (apply HR; by left). simpl. lia.
  - rewrite decide_True by (apply HR; by right). simpl. lia.
  - rewrite decide_False by (rewrite HR; tauto). done.
Qed.

Lemma member_counts db (orgs : list organization.row) :
  NoDup (organization.id <$> orgs) →
  sum_list (Organization.number_of_authors db <$> orgs)
  = length (filter (member_of orgs) (author_rows db)).
Proof.
  induction orgs as [|d orgs IH]; intros Hnd.
  - simpl. induction (author_rows db) as [|a l IHl]; [done|].
    rewrite filter_cons, decide_False; [done|].
    unfold member_of. apply not_elem_of_nil.
  - rewrite fmap_cons in Hnd. apply NoDup_cons in Hnd as [Hd Hnd].
    rewrite fmap_cons.
    change (sum_list (?n :: ?ns)) with (n + sum_list ns)%nat.
    rewrite (IH Hnd). unfold Organization.number_of_authors at 1.
    unfold Organization.authors. symmetry.
    apply length_filter_split.
    + intros a. unfold member_of. rewrite fmap_cons, elem_of_cons. done.
    + intros a Ha Hin. unfold member_of in Hin. rewrite Ha in Hin.
      apply list_elem_of_fmap in Hin as (d' & [= Heq] & Hd').
      apply Hd. rewrite Heq. by apply list_elem_of_fmap_2.
Qed.

(** X9: on a forest with unique ids, the [number_of_authors] entries of
    [descendant_tree], added to the organization's own [number_of_authors],
    give the number of author rows that reference the organization or one
    of its descendants. *)
Theorem subtree_author_total db o fuel ds t :
  Hierarchy.primary_key db → Hierarchy.acyclic db →
  o ∈ organization_rows db →
  Organization.descendants db fuel o = Done ds →
  Organization.descendant_tree db fuel o = Done t →
  (Organization.number_of_authors db o + Tree.forest_total_authors t)%nat
  = length (filter (member_of (o :: ds)) (author_rows db)).
Proof.
  intros Hpk Hacyclic Ho Hds Ht.
  rewrite (proj2 (descendant_tree_reads db fuel o ds t Hds Ht)).
  rewrite <-(member_counts db (o :: ds)); [done|].
  rewrite fmap_cons. apply NoDup_cons. split.
  - intros (d & Heq & Hd)%list_elem_of_fmap.
    by apply (descendant_id_differs db fuel o ds d Hpk Hacyclic Ho Hds Hd).
  - apply NoDup_fmap_2_strong.
    + intros x y Hx Hy. apply (id_inj_rows db Hpk).
      * by apply (descendants_sound db Hpk fuel o ds x Ho Hds).
      * by apply (descendants_sound db Hpk fuel o ds y Ho Hds).
    + by apply (descendants_NoDup db Hpk Hacyclic fuel o).
Qed.

Lemma subtree_author_total_witness :
  (Organization.number_of_authors Sample.forest Sample.org_A
   + Tree.forest_total_authors
       [Organization.TreeNode 2 "B" [Organization.TreeNode 3 "C" [] 1] 0])%nat
  = length (filter (member_of [Sample.org_A; Sample.org_B; Sample.org_C])
                   (author_rows Sample.forest)).
Proof.
  apply (subtree_author_total Sample.forest Sample.org_A 3
           [Sample.org_B; Sample.org_C]).
  - exact sample_forest_primary_key.
  - exact sample_forest_acyclic.
  - simpl. left.
  - reflexivity.
  - reflexivity.
Defined.

(** ** The two sides of each relation *)

(** X10: [children] is the other side of [parent]: on a table with unique
    ids, a stored organization is among the children of [o] exactly when
    its parent is [o]; an organization has at most one parent and is never
    a child of two different stored organizations. *)
Theorem children_is_backref_of_parent db o c :
  Hierarchy.primary_key db →
  o ∈ organization_rows db → c ∈ organization_rows db →
  (c ∈ Organization.children db o ↔ Organization.parent db c = Some o) ∧
  (∀ o', o' ∈ organization_rows db →
         c ∈ Organization.children db o → c ∈ Organization.children db o' →
         o = o').
Proof.
  intros Hpk Ho Hc. split.
  - split; [by apply parent_of_child|by apply child_of_parent].
  - intros o' Ho' H1 H2.
    pose proof (parent_of_child db o c Hpk Ho H1) as E1.
    pose proof (parent_of_child db o' c Hpk Ho' H2) as E2.
    congruence.
Qed.

Lemma children_is_backref_of_parent_witness :
  Sample.org_B ∈ Organization.children Sample.forest Sample.org_A ↔
  Organization.parent Sample.forest Sample.org_B = Some Sample.org_A.
Proof.
  apply (children_is_backref_of_parent Sample.forest Sample.org_A
           Sample.org_B).
  - exact sample_forest_primary_key.
  - simpl. left.
  - simpl. right. left.
Defined.

(** X11: [Organization.authors] is the other side of
    [Author.organization]: on a table with unique organization ids, a
    stored author is among the authors of a stored organization exactly
    when the author's organization is that one. *)
Theorem authors_is_backref_of_organization db o a :
  Hierarchy.primary_key db →
  o ∈ organization_rows db → a ∈ author_rows db →
  a ∈ Organization.authors db o ↔ Author.organization db a = Some o.
Proof.
  intros Hpk Ho Ha. unfold Organization.authors, Author.organization.
  rewrite list_elem_of_filter. split.
  - intros [-> _]. simpl. by apply get_organization_unique.
  - destruct (author.organization_id a) as [oid|]; simpl; [|done].
    intros [_ <-]%get_organization_Some. done.
Qed.

Lemma authors_is_backref_of_organization_witness :
  Sample.author_X ∈ Organization.authors Sample.forest Sample.org_C ↔
  Author.organization Sample.forest Sample.author_X = Some Sample.org_C.
Proof.
  apply (authors_is_backref_of_organization Sample.forest Sample.org_C
           Sample.author_X).
  - exact sample_forest_primary_key.
  - simpl. do 2 right. left.
  - simpl. left.
Defined.

Lemma elem_of_publications db a p :
  p ∈ Author.publications db a ↔
  p ∈ publication_rows db ∧
  ∃ e, e ∈ author_publication_rows db ∧
       author_publication.author_id e = Some (author.id a) ∧
       author_publication.publication_id e = Some (publication.id p).
Proof.
  unfold Author.publications. rewrite list_elem_of_bind. split.
  - intros (e & [Hp Hin]%list_elem_of_filter & [He Hein]%list_elem_of_filter).
    eauto 6.
  - intros (Hin & e & Hein & He & Hp). exists e.
    split; by apply list_elem_of_filter.
Qed.

Lemma elem_of_publication_authors db p a :
  a ∈ Publication.authors db p ↔
  a ∈ author_rows db ∧
  ∃ e, e ∈ author_publication_rows db ∧
       author_publication.author_id e = Some (author.id a) ∧
       author_publication.publication_id e = Some (publication.id p).
Proof.
  unfold Publication.authors. rewrite list_elem_of_bind. split.
  - intros (e & [Ha Hin]%list_elem_of_filter & [He Hein]%list_elem_of_filter).
    eauto 6.
  - intros (Hin & e & Hein & He & Hp). exists e.
    split; by apply list_elem_of_filter.
Qed.

(** X12: [Publication.authors] is the other side of [Author.publications]:
    for a stored author and a stored publication, the publication is among
    the author's publications exactly when the author is among the
    publication's authors; both collections hold stored rows only. *)
Theorem publication_authors_is_backref db a p :
  (a ∈ author_rows db → p ∈ publication_rows db →
   p ∈ Author.publications db a ↔ a ∈ Publication.authors db p) ∧
  (p ∈ Author.publications db a → p ∈ publication_rows db) ∧
  (a ∈ Publication.authors db p → a ∈ author_rows db).
Proof.
  rewrite elem_of_publications, elem_of_publication_authors.
  split_and!; tauto.
Qed.

Lemma publication_authors_is_backref_witness :
  Sample.paper_1 ∈ Author.publications Sample.forest Sample.author_X ↔
  Sample.author_X ∈ Publication.authors Sample.forest Sample.paper_1.
Proof.
  destruct (publication_authors_is_backref Sample.forest Sample.author_X
              Sample.paper_1) as [H _].
  apply H; simpl; left.
Defined.

(** ** The per-year series under its composite key *)

Lemma NoDup_fmap_inj_on {A B : Type} (f : A → B) (l : list A) x y :
  NoDup (f <$> l) → x ∈ l → y ∈ l → f x = f y → x = y.
Proof.
  induction l as [|z l IH]; intros Hnd Hx Hy Heq.
  - by apply elem_of_nil in Hx.
  - rewrite fmap_cons in Hnd. apply NoDup_cons in Hnd as [Hz Hnd].
    apply elem_of_cons in Hx as [->|Hx], Hy as [->|Hy].
    + done.
    + exfalso. apply Hz. rewrite Heq. by apply list_elem_of_fmap_2.
    + exfalso. apply Hz. rewrite <-Heq. by apply list_elem_of_fmap_2.
    + by apply IH.
Qed.

Section series_facts.
Variable db : Db.
Variable a : author.row.
Hypothesis Hkey : Keys.author_year (author_citations_per_year_rows db).
Abbreviation year := author_citations_per_year.year.
Abbreviation own_rows :=
  (filter (λ r, author_citations_per_year.author_id r = author.id a)
          (author_citations_per_year_rows db)).

Lemma series_elem r :
  r ∈ Author.citations_per_year db a ↔ r ∈ own_rows.
Proof.
  unfold Author.citations_per_year.
  by rewrite load_collection_Permutation.
Qed.

Lemma own_rows_year_inj r1 r2 :
  r1 ∈ own_rows → r2 ∈ own_rows → year r1 = year r2 → r1 = r2.
Proof.
  intros [E1 H1]%list_elem_of_filter [E2 H2]%list_elem_of_filter Hy.
  apply (NoDup_fmap_inj_on _ _ r1 r2 Hkey H1 H2). congruence.
Qed.

Lemma series_sorted :
  StronglySorted (key_le year) (Author.citations_per_year db a).
Proof.
  unfold Author.citations_per_year, load_collection. simpl.
  apply StronglySorted_merge_sort; apply _.
Qed.

Lemma series_NoDup : NoDup (Author.citations_per_year db a).
Proof.
  unfold Author.citations_per_year.
  rewrite load_collection_Permutation.
  apply NoDup_filter. eapply NoDup_fmap_1. exact Hkey.
Qed.

Lemma series_strict :
  StronglySorted (λ r1 r2, (year r1 < year r2)%Z)
                 (Author.citations_per_year db a).
Proof.
  pose proof series_sorted as Hs. pose proof series_NoDup as Hnd.
  assert (Hin : ∀ r, r ∈ Author.citations_per_year db a → r ∈ own_rows)
    by (intros r; apply series_elem).
  induction Hs as [|r s Hs IH Hall]; [constructor|].
  apply NoDup_cons in Hnd as [Hr Hnd]. constructor.
  - apply IH; [done|]. intros r' Hr'. apply Hin. by right.
  - apply Forall_forall. intros r' Hr'.
    rewrite Forall_forall in Hall. specialize (Hall r' Hr').
    unfold key_le in Hall.
    destruct (decide (year r = year r')) as [Heq|Hne]; [|lia].
    exfalso. apply Hr.
    assert (r = r') as ->; [|done].
    apply own_rows_year_inj; [apply Hin; left|apply Hin; by right|done].
Qed.
End series_facts.

(** X13: when [(author_id, year)] is a key of the per-year table, an
    author's [citations_per_year] is in strictly ascending year order, and
    what is read does not depend on the order in which the rows are
    stored. *)
Theorem author_series_strict_and_storage_independent db db' a :
  Keys.author_year (author_citations_per_year_rows db) →
  author_citations_per_year_rows db' ≡ₚ author_citations_per_year_rows db →
  StronglySorted (λ r1 r2, (author_citations_per_year.year r1
                            < author_citations_per_year.year r2)%Z)
                 (Author.citations_per_year db a) ∧
  Author.citations_per_year db' a = Author.citations_per_year db a.
Proof.
  intros Hkey Hperm. split; [by apply series_strict|].
  assert (Hkey' : Keys.author_year (author_citations_per_year_rows db')).
  { unfold Keys.author_year. by rewrite Hperm. }
  apply (StronglySorted_unique_strong
           (key_le author_citations_per_year.year)).
  - intros r1 r2 H1 H2 Hle1 Hle2. unfold key_le in *.
    apply (own_rows_year_inj db a Hkey); [|by apply series_elem|lia].
    apply series_elem in H1. apply list_elem_of_filter in H1 as [E1 H1].
    apply list_elem_of_filter. split; [done|]. by rewrite <-Hperm.
  - apply series_sorted.
  - apply series_sorted.
  - unfold Author.citations_per_year.
    rewrite !load_collection_Permutation. by rewrite Hperm.
Qed.

Lemma author_series_strict_and_storage_independent_witness :
  StronglySorted (λ r1 r2, (author_citations_per_year.year r1
                            < author_citations_per_year.year r2)%Z)
                 (Author.citations_per_year Sample.forest Sample.author_X) ∧
  Author.citations_per_year Reordered.forest Sample.author_X
  = Author.citations_per_year Sample.forest Sample.author_X.
Proof.
  apply (author_series_strict_and_storage_independent
           Sample.forest Reordered.forest Sample.author_X).
  - apply (bool_decide_unpack _). reflexivity.
  - apply reverse_Permutation.
Defined.

(** X14: inserting coauthor edges never removes anyone from anybody's
    coauthors, and once both directed edges between two stored authors are
    inserted each is among the coauthors of the other. *)
Theorem coauthor_edges_accumulate db x y :
  (∀ z w, w ∈ Author.coauthors db z →
          w ∈ Author.coauthors (Session.insert_coauthor x y db) z) ∧
  (x ∈ author_rows db → y ∈ author_rows db →
   y ∈ Author.coauthors
         (Session.insert_coauthor y x (Session.insert_coauthor x y db)) x ∧
   x ∈ Author.coauthors
         (Session.insert_coauthor y x (Session.insert_coauthor x y db)) y).
Proof.
  split.
  - intros z w. rewrite !elem_of_coauthors. simpl.
    intros (Hw & e & He & H1 & H2). split; [done|].
    exists e. split; [|done]. apply elem_of_app. by left.
  - intros Hx Hy. rewrite !elem_of_coauthors. simpl. split.
    + split; [done|].
      exists (coauthor.Row (Some (author.id x)) (Some (author.id y))).
      split; [|done]. apply elem_of_app. left. apply elem_of_app. right.
      left.
    + split; [done|].
      exists (coauthor.Row (Some (author.id y)) (Some (author.id x))).
      split; [|done]. apply elem_of_app. right. left.
Qed.

Lemma coauthor_edges_accumulate_witness :
  Sample.author_Y ∈
    Author.coauthors
      (Session.insert_coauthor Sample.author_Y Sample.author_X
         (Session.insert_coauthor Sample.author_X Sample.author_Y
            Sample.forest)) Sample.author_X ∧
  Sample.author_X ∈
    Author.coauthors
      (Session.insert_coauthor Sample.author_Y Sample.author_X
         (Session.insert_coauthor Sample.author_X Sample.author_Y
            Sample.forest)) Sample.author_Y.
Proof.
  destruct (coauthor_edges_accumulate Sample.forest Sample.author_X
              Sample.author_Y) as [_ H].
  apply H; simpl; [left|right; left].
Defined.

Lemma get_author_unique db a :
  Keys.author db → a ∈ author_rows db →
  get_author db (author.id a) = Some a.
Proof.
  unfold Keys.author, get_author.
  induction (author_rows db) as [|x l IH]; intros Hnd Hin.
  - by apply elem_of_nil in Hin.
  - rewrite fmap_cons in Hnd. apply NoDup_cons in Hnd as [Hx Hnd].
    rewrite filter_cons. apply elem_of_cons in Hin as [->|Hin].
    + by rewrite decide_True.
    + rewrite decide_False; [by apply IH|].
      intros Heq. apply Hx. rewrite Heq. by apply list_elem_of_fmap_2.
Qed.

Lemma get_publication_unique db p :
  Keys.publication db → p ∈ publication_rows db →
  get_publication db (publication.id p) = Some p.
Proof.
  unfold Keys.publication, get_publication.
  induction (publication_rows db) as [|x l IH]; intros Hnd Hin.
  - by apply elem_of_nil in Hin.
  - rewrite fmap_cons in Hnd. apply NoDup_cons in Hnd as [Hx Hnd].
    rewrite filter_cons. apply elem_of_cons in Hin as [->|Hin].
    + by rewrite decide_True.
    + rewrite decide_False; [by apply IH|].
      intros Heq. apply Hx. rewrite Heq. by apply list_elem_of_fmap_2.
Qed.

(** X15: the per-year rows point back at their owner: with unique author
    (publication) ids, a stored per-year row is in the
    [citations_per_year] of a stored author (publication) exactly when the
    row's [author] ([publication]) is that one. *)
Theorem per_year_rows_point_back db :
  (Keys.author db →
   ∀ a r, a ∈ author_rows db → r ∈ author_citations_per_year_rows db →
     r ∈ Author.citations_per_year db a ↔
     AuthorCitationsPerYear.author db r = Some a) ∧
  (Keys.publication db →
   ∀ p r, p ∈ publication_rows db →
     r ∈ publication_citations_per_year_rows db →
     r ∈ Publication.citations_per_year db p ↔
     PublicationCitationsPerYear.publication db r = Some p).
Proof.
  split.
  - intros Hkey a r Ha Hr. unfold Author.citations_per_year.
    rewrite load_collection_Permutation, list_elem_of_filter.
    unfold AuthorCitationsPerYear.author. split.
    + intros [-> _]. by apply get_author_unique.
    + intros Hget. split; [|done]. unfold get_author in Hget.
      apply head_Some_elem_of, list_elem_of_filter in Hget as [? _]. done.
  - intros Hkey p r Hp Hr. unfold Publication.citations_per_year.
    rewrite load_collection_Permutation, list_elem_of_filter.
    unfold PublicationCitationsPerYear.publication. split.
    + intros [-> _]. by apply get_publication_unique.
    + intros Hget. split; [|done]. unfold get_publication in Hget.
      apply head_Some_elem_of, list_elem_of_filter in Hget as [? _]. done.
Qed.

Lemma per_year_rows_point_back_witness :
  author_citations_per_year.Row 1 2013 10
    ∈ Author.citations_per_year Sample.forest Sample.author_X ↔
  AuthorCitationsPerYear.author Sample.forest
    (author_citations_per_year.Row 1 2013 10) = Some Sample.author_X.
Proof.
  destruct (per_year_rows_point_back Sample.forest) as [H _].
  apply H.
  - apply (bool_decide_unpack _). reflexivity.
  - simpl. left.
  - simpl. do 2 right. left.
Defined.
